(** * Tapo-Directory: the inventory scripts [sync_keys.py] and [archive_files.py]

    A shallow embedding of the two batch scripts and the properties of
    their specification.

    Conventions of the embedding.
    - A Python [str] is a [string]; a character stands for a code point
      below 256, and the character classes ([str.isspace], the classes of
      the regular expressions) are the ones Python uses on that range.
    - A [dict] is a [gmap]; the [set] of current paths is the key set of
      the snapshot map.
    - A function that can raise returns an [option] or a [result]. *)

From Stdlib Require Import Ascii.
From Stdlib Require String.
From stdpp Require Import base option list sorting gmap strings.


(** ** Characters and strings *)

Definition LF : ascii := "010"%char.
Definition CR : ascii := "013"%char.
Definition COMMA : ascii := ","%char.
Definition QUOTE : ascii := "034"%char.

(** [str.isspace] on one character (code points below 256): the ASCII
    blanks, the separators 0x1c..0x1f, NEL 0x85 and the no-break space 0xa0. *)
Definition is_space (c : ascii) : bool :=
  match c with
  | "009" | "010" | "011" | "012" | "013"
  | "028" | "029" | "030" | "031" | "032" | "133" | "160" => true
  | _ => false
  end%char.

Fixpoint str_all (p : ascii → bool) (s : string) : bool :=
  match s with
  | "" => true
  | String c s' => p c && str_all p s'
  end.

Definition str_single (c : ascii) : string := String c "".

(** [s.endswith(suffix)] *)
Definition endswith (s suffix : string) : bool :=
  let n := String.length s in
  let k := String.length suffix in
  bool_decide (k ≤ n) && bool_decide (String.substring (n - k) k s = suffix).

(** ** Listing parser *)

(** The scan [while i < n and s[i].isspace(): i++] of [str.split]. *)
Fixpoint lstrip (s : string) : string :=
  match s with
  | "" => ""
  | String c s' => if is_space c then lstrip s' else s
  end.

(** The scan [while i < n and not s[i].isspace(): i++]: the word at the
    head of [s] and what follows it. *)
Fixpoint take_word (s : string) : string * string :=
  match s with
  | "" => ("", "")
  | String c s' =>
      if is_space c then ("", s)
      else let '(w, rest) := take_word s' in (String c w, rest)
  end.

(** [s.split(None, maxsplit)]: at most [maxsplit] words are cut off the
    front; what is left, without its leading blanks, is the last item. *)
Fixpoint split_ws (maxsplit : nat) (s : string) : list string :=
  let s1 := lstrip s in
  match maxsplit with
  | 0 => match s1 with "" => [] | _ => [s1] end
  | S m =>
      match s1 with
      | "" => []
      | _ => let '(w, rest) := take_word s1 in w :: split_ws m rest
      end
  end.

(** [s.split()]: no bound on the number of splits. *)
Definition tokens (s : string) : list string := split_ws (String.length s) s.

Definition parse_s3_line (line : string) : option (string * string * string) :=
  match split_ws 3 line with
  | [date; time; size; fullpath] =>
      if endswith fullpath "/" then None
      else Some (date +:+ " " +:+ time, size, fullpath)
  | _ => None
  end.

(** The shapes of a data line: blanks, words, and the remainder. *)
Definition is_blank (b : string) : bool :=
  bool_decide (b ≠ "") && str_all is_space b.

Definition is_word (w : string) : bool :=
  bool_decide (w ≠ "") && str_all (λ c, negb (is_space c)) w.

(** The last item of a capped split: it starts with a character that is
    not a blank, and may contain blanks after it. *)
Definition is_remainder (p : string) : bool :=
  match p with
  | "" => false
  | String c _ => negb (is_space c)
  end.

(** ** Path classifier *)

(** [s.split(sep)] for a one-character separator: always at least one item. *)
Fixpoint split_on (sep : ascii) (s : string) : list string :=
  match s with
  | "" => [""]
  | String c s' =>
      if decide (c = sep) then "" :: split_on sep s'
      else match split_on sep s' with
           | h :: t => String c h :: t
           | [] => [str_single c]
           end
  end.

(** [s.rstrip(chars)] for the characters accepted by [p]. *)
Fixpoint rstrip (p : ascii → bool) (s : string) : string :=
  match s with
  | "" => ""
  | String c s' =>
      match rstrip p s' with
      | "" => if p c then "" else str_single c
      | t => String c t
      end
  end.

(** *** The fragment of [re] the two patterns use

    A backtracking matcher in continuation-passing style: the
    continuation is the rest of the pattern, and the first success in the
    order in which [re] tries the alternatives is the match. Positions
    count characters from the start of the subject. *)
Inductive regex : Type :=
| Eps
| Chr (p : ascii → bool)
| Seq (r1 r2 : regex)
| Alt (r1 r2 : regex)
| LazyStar (p : ascii → bool)
| GreedyPlus (p : ascii → bool)
| Group (r : regex).

Definition span : Type := nat * nat.

Section Matcher.
Context {A : Type}.

(** [c*?]: the continuation is tried first, a character is consumed only
    when it fails. *)
Fixpoint lazy_star (p : ascii → bool) (k : nat → string → option A)
    (pos : nat) (s : string) : option A :=
  match k pos s with
  | Some a => Some a
  | None =>
      match s with
      | String c s' => if p c then lazy_star p k (S pos) s' else None
      | "" => None
      end
  end.

(** [c*]: a character is consumed first, the continuation is tried when
    no longer match succeeds. *)
Fixpoint greedy_star (p : ascii → bool) (k : nat → string → option A)
    (pos : nat) (s : string) : option A :=
  match s with
  | String c s' =>
      if p c then
        match greedy_star p k (S pos) s' with
        | Some a => Some a
        | None => k pos s
        end
      else k pos s
  | "" => k pos s
  end.

Fixpoint rmatch (r : regex) (k : nat → string → option span → option A)
    (pos : nat) (s : string) (g : option span) : option A :=
  match r with
  | Eps => k pos s g
  | Chr p =>
      match s with
      | String c s' => if p c then k (S pos) s' g else None
      | "" => None
      end
  | Seq r1 r2 => rmatch r1 (λ pos' s' g', rmatch r2 k pos' s' g') pos s g
  | Alt r1 r2 =>
      match rmatch r1 k pos s g with
      | Some a => Some a
      | None => rmatch r2 k pos s g
      end
  | LazyStar p => lazy_star p (λ pos' s', k pos' s' g) pos s
  | GreedyPlus p =>
      match s with
      | String c s' =>
          if p c then greedy_star p (λ pos' s', k pos' s' g) (S pos) s'
          else None
      | "" => None
      end
  | Group r => rmatch r (λ pos' s' _, k pos' s' (Some (pos, pos'))) pos s g
  end.

End Matcher.

(** [re.match(r, s)] followed by [.group(1)]: [None] when there is no
    match. Both patterns have group 1 on every path, so a match always
    carries its span. *)
Definition re_match_group1 (r : regex) (s : string) : option string :=
  match rmatch r (λ _ _ g, Some g) 0 s None with
  | Some (Some (b, e)) => Some (String.substring b (e - b) s)
  | _ => None
  end.

Definition is_digit (c : ascii) : bool :=
  let n := nat_of_ascii c in bool_decide (48 ≤ n ≤ 57).
Definition is_upper (c : ascii) : bool :=
  let n := nat_of_ascii c in bool_decide (65 ≤ n ≤ 90).
Definition is_lower (c : ascii) : bool :=
  let n := nat_of_ascii c in bool_decide (97 ≤ n ≤ 122).
(** [[A-Za-z]] *)
Definition is_alpha (c : ascii) : bool := is_upper c || is_lower c.
(** [[A-Za-z0-9\-]] *)
Definition is_run_char (c : ascii) : bool :=
  is_alpha c || is_digit c || bool_decide (c = "-"%char).
(** [[_\(]] *)
Definition is_underscore_or_paren (c : ascii) : bool :=
  bool_decide (c = "_"%char) || bool_decide (c = "("%char).

Definition to_lower (c : ascii) : ascii :=
  if is_upper c then ascii_of_nat (nat_of_ascii c + 32) else c.

(** A literal character under [re.IGNORECASE]. *)
Definition chr_ci (c : ascii) : regex :=
  Chr (λ x, bool_decide (to_lower x = to_lower c)).

Fixpoint lit_ci (s : string) : regex :=
  match s with
  | "" => Eps
  | String c s' => Seq (chr_ci c) (lit_ci s')
  end.

(** [(?:[0-9]|en_|v[0-9]|Build|Rel|dist)] under [re.IGNORECASE] *)
Definition marker_re : regex :=
  Alt (Chr is_digit)
    (Alt (lit_ci "en_")
      (Alt (Seq (chr_ci "v") (Chr is_digit))
        (Alt (lit_ci "Build") (Alt (lit_ci "Rel") (lit_ci "dist"))))).

(** [^([A-Za-z][A-Za-z0-9\-]*?)\s+(?:[0-9]|en_|v[0-9]|Build|Rel|dist)],
    compiled with [re.IGNORECASE]; on code points below 256 the classes
    [[A-Za-z]] and [[0-9]] are unchanged by the flag. *)
Definition first_pattern : regex :=
  Seq (Group (Seq (Chr is_alpha) (LazyStar is_run_char)))
      (Seq (GreedyPlus is_space) marker_re).

(** [^([A-Za-z][A-Za-z0-9\-]*?)[_\(]] *)
Definition second_pattern : regex :=
  Seq (Group (Seq (Chr is_alpha) (LazyStar is_run_char)))
      (Chr is_underscore_or_paren).

Definition is_hyphen (c : ascii) : bool := bool_decide (c = "-"%char).

Definition first_attempt (filename : string) : option string :=
  re_match_group1 first_pattern filename.

Definition second_attempt (filename : string) : option string :=
  re_match_group1 second_pattern filename.

Definition extract_type_and_product (fullpath : string)
    : option (string * string * string) :=
  let parts := split_on "/" fullpath in
  if decide (length parts < 2) then None
  else
    let file_type := default "" (parts !! 0) in
    let '(subfolder, filename) :=
      if decide (3 ≤ length parts)
      then (default "" (parts !! 1), default "" (last parts))
      else ("", default "" (parts !! 1)) in
    match first_attempt filename with
    | Some product => Some (file_type, subfolder, rstrip is_hyphen product)
    | None =>
        match second_attempt filename with
        | Some product => Some (file_type, subfolder, rstrip is_hyphen product)
        | None => None
        end
    end.

(** [lit] is a prefix of [s] up to letter case. *)
Fixpoint ci_prefix (lit s : string) : bool :=
  match lit, s with
  | "", _ => true
  | String c l, String x s' =>
      bool_decide (to_lower x = to_lower c) && ci_prefix l s'
  | String _ _, "" => false
  end.

(** The shapes the first pattern accepts. A product run: a letter, then
    letters, digits and hyphens. *)
Definition is_run (run : string) : bool :=
  match run with
  | "" => false
  | String c r => is_alpha c && str_all is_run_char r
  end.

Fixpoint str_to_lower (s : string) : string :=
  match s with
  | "" => ""
  | String c s' => String (to_lower c) (str_to_lower s')
  end.

(** What may follow the run: one digit, or [en_], [v] and a digit,
    [Build], [Rel], [dist], in any letter case. *)
Definition is_marker (m : string) : bool :=
  match m with
  | String d "" => is_digit d
  | String v (String d "") => bool_decide (to_lower v = "v"%char) && is_digit d
  | _ => false
  end
  || bool_decide (str_to_lower m ∈ ["en_"; "build"; "rel"; "dist"]).

(** The shape the specification describes for the first attempt: the run
    (any letters, digits and hyphens), then the marker at once. *)
Definition spec_first_shape (filename run : string) : Prop :=
  ∃ m tail, filename = run +:+ m +:+ tail
            ∧ run ≠ "" ∧ str_all is_run_char run = true ∧ is_marker m = true.

(** ** Dates *)

(** The part of [datetime.now()] the scripts use. *)
Record datetime : Type := { year : nat; month : nat; day : nat }.

Definition digit_char (n : nat) : ascii := ascii_of_nat (48 + n mod 10).

(** [strftime("%Y-%m-%d")]: four digits, two digits, two digits (a
    [datetime] has a year between 1 and 9999). *)
Definition strftime_Ymd (d : datetime) : string :=
  String (digit_char (year d / 1000))
    (String (digit_char (year d / 100))
      (String (digit_char (year d / 10))
        (String (digit_char (year d))
          (String "-"
            (String (digit_char (month d / 10))
              (String (digit_char (month d))
                (String "-"
                  (String (digit_char (day d / 10))
                    (String (digit_char (day d)) ""))))))))).

(** ** Records *)

(** Python's [x or d] on an optional string: [None] and the empty string
    are both false. *)
Definition py_or (x : option string) (d : string) : string :=
  match x with
  | Some s => if decide (s = "") then d else s
  | None => d
  end.

Module FileRecord.

Record t : Type := mk {
  creation : string;
  size : string;
  fullpath : string;
  added : string;
  removed : string;
  wayback_url : string
}.

(** [FileRecord.__init__]; [now] is the clock read by the default of
    [added]. *)
Definition init (now : datetime) (creation size fullpath : string)
    (added removed wayback_url : option string) : t :=
  {| creation := creation;
     size := size;
     fullpath := fullpath;
     added := py_or added (strftime_Ymd now);
     removed := py_or removed "";
     wayback_url := py_or wayback_url "" |}.

Definition to_dict (r : t) : list (string * string) :=
  [("creation", creation r); ("size", size r); ("fullpath", fullpath r);
   ("added", added r); ("removed", removed r);
   ("wayback_url", wayback_url r)].

(** Attribute assignments [record.creation = v], [record.size = v],
    [record.removed = v]. *)
Definition set_creation (r : t) (v : string) : t :=
  mk v (size r) (fullpath r) (added r) (removed r) (wayback_url r).
Definition set_size (r : t) (v : string) : t :=
  mk (creation r) v (fullpath r) (added r) (removed r) (wayback_url r).
Definition set_removed (r : t) (v : string) : t :=
  mk (creation r) (size r) (fullpath r) (added r) v (wayback_url r).

#[global] Instance eq_dec : EqDecision t.
Proof. solve_decision. Defined.

End FileRecord.

(** ** Inventory reconciler *)

(** The parsing loop of [sync_files]: [file_data[fullpath] = (creation,
    size)] and [current_files.add(fullpath)] for every data line. The two
    are updated together, so [current_files] is the key set of [file_data]
    and only [file_data] is kept. *)
Definition parse_step (file_data : gmap string (string * string))
    (line : string) : gmap string (string * string) :=
  match parse_s3_line line with
  | None => file_data
  | Some (creation, size, fullpath) => <[fullpath := (creation, size)]> file_data
  end.

Definition parse_listing (s3_lines : list string)
    : gmap string (string * string) :=
  foldl parse_step ∅ s3_lines.

Definition is_initial_crawl (initial_crawl : bool)
    (existing_records : gmap string FileRecord.t) : bool :=
  initial_crawl || bool_decide (size existing_records = 0).

Definition added_date (is_initial : bool) (today : string) : string :=
  if is_initial then "initial crawl" else today.

(** The entry a line of the listing gives for the path [k], if any. *)
Definition line_entry (k line : string) : option (string * string) :=
  match parse_s3_line line with
  | Some (creation, size, fullpath) =>
      if decide (fullpath = k) then Some (creation, size) else None
  | None => None
  end.

(** The body of [for fullpath in current_files]; the state is
    [(updated_records, new_urls)]. The record of an existing path is
    updated in place: the same object goes to [updated_records]. *)
Definition present_step (now : datetime) (added_date : string)
    (existing_records : gmap string FileRecord.t)
    (st : list FileRecord.t * nat) (entry : string * (string * string))
    : list FileRecord.t * nat :=
  let '(fullpath, (creation, size)) := entry in
  match existing_records !! fullpath with
  | Some record =>
      (st.1 ++ [FileRecord.set_size (FileRecord.set_creation record creation) size],
       st.2)
  | None =>
      (st.1 ++ [FileRecord.init now creation size fullpath (Some added_date) None None],
       st.2 + 1)
  end.

(** The body of [for fullpath, record in existing_records.items()]; the
    state is [(updated_records, removed_urls)]. The records this loop
    touches are not in [current_files], so the first loop has not changed
    them. *)
Definition absent_step (today : string)
    (file_data : gmap string (string * string))
    (st : list FileRecord.t * nat) (entry : string * FileRecord.t)
    : list FileRecord.t * nat :=
  let '(fullpath, record) := entry in
  if decide (fullpath ∈ dom file_data) then st
  else if decide (FileRecord.removed record = "")
       then (st.1 ++ [FileRecord.set_removed record today], st.2 + 1)
       else (st.1 ++ [record], st.2).

Record reconciled : Type := {
  updated_records : list FileRecord.t;
  new_urls : nat;
  removed_urls : nat
}.

(** Lines 173 to 205 of [sync_files]: from the snapshot and the loaded
    table to the list handed to [save_csv] and the two counters. *)
Definition reconcile (initial_crawl : bool) (now : datetime)
    (file_data : gmap string (string * string))
    (existing_records : gmap string FileRecord.t) : reconciled :=
  let today := strftime_Ymd now in
  let is_initial := is_initial_crawl initial_crawl existing_records in
  let st1 :=
    foldl (present_step now (added_date is_initial today) existing_records)
          ([], 0) (map_to_list file_data) in
  let st2 :=
    if is_initial then (st1.1, 0)
    else foldl (absent_step today file_data) (st1.1, 0)
               (map_to_list existing_records) in
  {| updated_records := st2.1; new_urls := st1.2; removed_urls := st2.2 |}.

(** What the two loops append, entry by entry. *)
Definition present_record (now : datetime) (added_date : string)
    (existing_records : gmap string FileRecord.t)
    (entry : string * (string * string)) : FileRecord.t :=
  match existing_records !! entry.1 with
  | Some record =>
      FileRecord.set_size (FileRecord.set_creation record entry.2.1) entry.2.2
  | None =>
      FileRecord.init now entry.2.1 entry.2.2 entry.1 (Some added_date) None None
  end.

Definition absent_record (today : string) (record : FileRecord.t)
    : FileRecord.t :=
  if decide (FileRecord.removed record = "")
  then FileRecord.set_removed record today else record.

(** The table invariant of [load_existing_csv]: a record is stored under
    its own path. *)
Definition keyed_by_path (table : gmap string FileRecord.t) : Prop :=
  map_Forall (λ k r, FileRecord.fullpath r = k) table.

(** Sample data for the scenarios. *)
Definition new_year_2024 : datetime := {| year := 2024; month := 1; day := 1 |}.

Definition record_x : FileRecord.t :=
  FileRecord.mk "2023-05-01 08:00:00" "100" "x" "2023-05-02" "" "".

Definition record_gone : FileRecord.t :=
  FileRecord.mk "2023-05-01 08:00:00" "100" "x" "2023-05-02" "2023-09-09" "".

(** ** Table store *)

(** *** Text files

    [open(path, 'r')] reads with universal newlines: [\r\n] and a lone
    [\r] become [\n]. [open(path, 'w', newline='')] writes the characters
    as they are. *)
Fixpoint universal_newlines (s : string) : string :=
  match s with
  | "" => ""
  | String c s' =>
      if decide (c = CR) then
        String LF
          match s' with
          | String c' s'' =>
              if decide (c' = LF) then universal_newlines s''
              else universal_newlines s'
          | "" => ""
          end
      else String c (universal_newlines s')
  end.

(** Iterating over a text file: the lines, each with its [\n] except
    possibly the last. *)
Fixpoint file_lines (s : string) : list string :=
  match s with
  | "" => []
  | String c s' =>
      if decide (c = LF) then str_single LF :: file_lines s'
      else match file_lines s' with
           | line :: lines => String c line :: lines
           | [] => [str_single c]
           end
  end.

(** *** The [csv] module, excel dialect

    Delimiter [,], quote character the double quote, [doublequote] on, no
    escape character, [QUOTE_MINIMAL], line terminator [\r\n], not
    strict. *)
Module Csv.

Definition needs_quote (c : ascii) : bool :=
  bool_decide (c = COMMA) || bool_decide (c = QUOTE)
  || bool_decide (c = CR) || bool_decide (c = LF).

Fixpoint any_char (p : ascii → bool) (s : string) : bool :=
  match s with
  | "" => false
  | String c s' => p c || any_char p s'
  end.

Fixpoint double_quotes (s : string) : string :=
  match s with
  | "" => ""
  | String c s' =>
      if decide (c = QUOTE) then String QUOTE (String QUOTE (double_quotes s'))
      else String c (double_quotes s')
  end.

(** One field as the writer emits it. *)
Definition write_field (f : string) : string :=
  if any_char needs_quote f
  then String QUOTE (double_quotes f +:+ str_single QUOTE)
  else f.

Fixpoint join_fields (cells : list string) : string :=
  match cells with
  | [] => ""
  | [f] => write_field f
  | f :: fs => write_field f +:+ String COMMA (join_fields fs)
  end.

(** [writer.writerow]: a record made of one empty field is written as an
    empty quoted field. *)
Definition writerow (cells : list string) : string :=
  let body := join_fields cells in
  (if bool_decide (cells ≠ []) && bool_decide (body = "")
   then String QUOTE (str_single QUOTE) else body)
  +:+ String CR (str_single LF).

(** The reader: the states of its automaton that can be reached without an
    escape character. *)
Inductive parser_state : Type :=
| START_RECORD
| START_FIELD
| IN_FIELD
| IN_QUOTED_FIELD
| QUOTE_IN_QUOTED_FIELD
| EAT_CRNL.

#[global] Instance parser_state_eq_dec : EqDecision parser_state.
Proof. solve_decision. Defined.

Record reader : Type := {
  state : parser_state;
  fields : list string;
  field : string
}.

(** [csv.field_size_limit()] *)
Definition field_limit : Z := 131072.

(** [parse_reset] *)
Definition reset : reader :=
  {| state := START_RECORD; fields := []; field := "" |}.

(** [parse_add_char]: [csv.Error] when the field is at the limit. *)
Definition add_char (r : reader) (c : ascii) : option reader :=
  if bool_decide (Z.of_nat (String.length (field r)) < field_limit)%Z
  then Some {| state := state r; fields := fields r;
               field := field r +:+ str_single c |}
  else None.

(** [parse_save_field] *)
Definition save_field (r : reader) : reader :=
  {| state := state r; fields := fields r ++ [field r]; field := "" |}.

Definition set_state (s : parser_state) (r : reader) : reader :=
  {| state := s; fields := fields r; field := field r |}.

(** A character of the line, or the end-of-line mark the reader feeds
    itself after each line. *)
Inductive input : Type :=
| Char (c : ascii)
| EOL.

Definition is_newline (c : input) : bool :=
  match c with
  | Char c => bool_decide (c = LF) || bool_decide (c = CR)
  | EOL => false
  end.

Definition after_line_end (c : input) : parser_state :=
  match c with EOL => START_RECORD | Char _ => EAT_CRNL end.

(** [parse_process_char]; [None] is [csv.Error]. *)
Definition process_char (r : reader) (c : input) : option reader :=
  let start_field (r : reader) : option reader :=
    match c with
    | EOL => Some (set_state START_RECORD (save_field r))
    | Char ch =>
        if is_newline c then Some (set_state EAT_CRNL (save_field r))
        else if decide (ch = QUOTE) then Some (set_state IN_QUOTED_FIELD r)
        else if decide (ch = COMMA) then Some (save_field r)
        else set_state IN_FIELD <$> add_char r ch
    end in
  match state r with
  | START_RECORD =>
      match c with
      | EOL => Some r
      | Char _ =>
          if is_newline c then Some (set_state EAT_CRNL r)
          else start_field (set_state START_FIELD r)
      end
  | START_FIELD => start_field r
  | IN_FIELD =>
      match c with
      | EOL => Some (set_state START_RECORD (save_field r))
      | Char ch =>
          if is_newline c then Some (set_state EAT_CRNL (save_field r))
          else if decide (ch = COMMA)
               then Some (set_state START_FIELD (save_field r))
               else add_char r ch
      end
  | IN_QUOTED_FIELD =>
      match c with
      | EOL => Some r
      | Char ch =>
          if decide (ch = QUOTE) then Some (set_state QUOTE_IN_QUOTED_FIELD r)
          else add_char r ch
      end
  | QUOTE_IN_QUOTED_FIELD =>
      match c with
      | EOL => Some (set_state START_RECORD (save_field r))
      | Char ch =>
          if decide (ch = QUOTE)
          then set_state IN_QUOTED_FIELD <$> add_char r ch
          else if decide (ch = COMMA)
               then Some (set_state START_FIELD (save_field r))
               else if is_newline c
                    then Some (set_state EAT_CRNL (save_field r))
                    else set_state IN_FIELD <$> add_char r ch
      end
  | EAT_CRNL =>
      match c with
      | EOL => Some (set_state START_RECORD r)
      | Char _ => if is_newline c then Some r else None
      end
  end.

(** The characters of one line. *)
Fixpoint process_line (r : reader) (line : string) : option reader :=
  match line with
  | "" => Some r
  | String c line' =>
      match process_char r (Char c) with
      | Some r' => process_line r' line'
      | None => None
      end
  end.

(** At the end of the input a pending field is saved and the row is
    returned; with nothing pending the iteration stops. *)
Definition end_of_input (r : reader) : list (list string) * bool :=
  if bool_decide (field r ≠ "") || bool_decide (state r = IN_QUOTED_FIELD)
  then ([fields (save_field r)], false)
  else ([], false).

(** After the characters of a line the reader feeds itself the end-of-line
    mark; the row is complete when the automaton is back in
    [START_RECORD], and [next] reads what follows. *)
Definition end_of_line (r : reader)
    (next : reader → list (list string) * bool) : list (list string) * bool :=
  match process_char r EOL with
  | None => ([], true)
  | Some r' =>
      if decide (state r' = START_RECORD)
      then let '(rows, err) := next reset in (fields r' :: rows, err)
      else next r'
  end.

(** [Reader_iternext], iterated until the lines run out: the rows read,
    and whether the reading ended with [csv.Error]. *)
Fixpoint read_rows (r : reader) (lines : list string)
    : list (list string) * bool :=
  match lines with
  | [] => end_of_input r
  | line :: rest =>
      match process_line r line with
      | None => ([], true)
      | Some r1 => end_of_line r1 (λ r', read_rows r' rest)
      end
  end.

(** The same reading, character by character over the text of the file:
    [pending] says that the current line has characters already. *)
Fixpoint read_stream (r : reader) (pending : bool) (s : string)
    : list (list string) * bool :=
  match s with
  | "" => if pending then end_of_line r end_of_input else end_of_input r
  | String c s' =>
      match process_char r (Char c) with
      | None => ([], true)
      | Some r1 =>
          if decide (c = LF)
          then end_of_line r1 (λ r', read_stream r' false s')
          else read_stream r1 true s'
      end
  end.

(** [dict(zip(fieldnames, row))], then [restval = None] for the field names
    the row is too short for. A later duplicate of a name wins. The cells
    beyond the header go under the key [None], which no caller reads. *)
Fixpoint zip_restval (names row : list string) : list (string * option string) :=
  match names, row with
  | [], _ => []
  | n :: ns, [] => (n, None) :: zip_restval ns []
  | n :: ns, v :: vs => (n, Some v) :: zip_restval ns vs
  end.

Definition dict_of_row (names row : list string) : gmap string (option string) :=
  foldl (λ d kv, <[kv.1 := kv.2]> d) ∅ (zip_restval names row).

(** [csv.DictReader]: the first row is the header, empty rows after it are
    skipped. *)
Definition dict_reader (rows : list (list string))
    : list (gmap string (option string)) :=
  match rows with
  | [] => []
  | header :: data =>
      dict_of_row header <$> filter (λ row, row ≠ []) data
  end.

End Csv.

Inductive exn : Type :=
| CsvError
| KeyError (key : string)
| NoneField (key : string).

Inductive result (A : Type) : Type :=
| Ok (a : A)
| Raises (e : exn).
Arguments Ok {A} a.
Arguments Raises {A} e.

(** [row[key]] on a [DictReader] row. A cell that is [None] (the row is
    shorter than the header) is outside the embedding: [FileRecord] takes
    [str] for the three fields read this way, and [NoneField] stops the
    load there. *)
Definition dict_item (d : gmap string (option string)) (key : string)
    : result string :=
  match d !! key with
  | None => Raises (KeyError key)
  | Some None => Raises (NoneField key)
  | Some (Some v) => Ok v
  end.

(** [row.get(key, '')] *)
Definition dict_get (d : gmap string (option string)) (key : string)
    : option string :=
  default (Some "") (d !! key).

(** The body of the loop of [load_existing_csv]: the record built from one
    row. *)
Definition record_of_row (now : datetime) (d : gmap string (option string))
    : result FileRecord.t :=
  match dict_item d "fullpath" with
  | Raises e => Raises e
  | Ok fullpath =>
      match dict_item d "creation" with
      | Raises e => Raises e
      | Ok creation =>
          match dict_item d "size" with
          | Raises e => Raises e
          | Ok size =>
              Ok (FileRecord.init now creation size fullpath
                    (dict_get d "added") (dict_get d "removed")
                    (dict_get d "wayback_url"))
          end
      end
  end.

Fixpoint load_rows (now : datetime) (dicts : list (gmap string (option string)))
    (records : gmap string FileRecord.t) : result (gmap string FileRecord.t) :=
  match dicts with
  | [] => Ok records
  | d :: rest =>
      match record_of_row now d with
      | Raises e => Raises e
      | Ok r => load_rows now rest (<[FileRecord.fullpath r := r]> records)
      end
  end.

(** The rows [csv.DictReader] yields for the text of a file. *)
Definition csv_dicts (text : string)
    : list (gmap string (option string)) * bool :=
  let '(rows, err) :=
    Csv.read_rows Csv.reset (file_lines (universal_newlines text)) in
  (Csv.dict_reader rows, err).

(** [load_existing_csv]; [file] is the text of [all_keys.csv], [None] when
    the file does not exist. *)
Definition load_existing_csv (now : datetime) (file : option string)
    : result (gmap string FileRecord.t) :=
  match file with
  | None => Ok ∅
  | Some text =>
      let '(dicts, err) := csv_dicts text in
      match load_rows now dicts ∅ with
      | Raises e => Raises e
      | Ok records => if err then Raises CsvError else Ok records
      end
  end.

(** [sorted(records, key=lambda r: r.fullpath)]: a stable sort, strings
    compared character by character. *)
Fixpoint insert_by_path (r : FileRecord.t) (l : list FileRecord.t)
    : list FileRecord.t :=
  match l with
  | [] => [r]
  | x :: l' =>
      if decide (String.le (FileRecord.fullpath r) (FileRecord.fullpath x))
      then r :: l
      else x :: insert_by_path r l'
  end.

Definition sorted_by_path (records : list FileRecord.t) : list FileRecord.t :=
  foldr insert_by_path [] records.

Definition fieldnames : list string :=
  ["creation"; "size"; "fullpath"; "added"; "removed"; "wayback_url"].

(** [DictWriter.writerow]: the cells in the order of the field names. *)
Definition dict_cells (d : list (string * string)) : list string :=
  (λ key, default "" (list_to_map (M := gmap string string) d !! key))
    <$> fieldnames.

(** [save_csv]: the text written to [all_keys.csv]. *)
Definition save_csv (records : list FileRecord.t) : string :=
  Csv.writerow fieldnames
  +:+ foldr (λ r text, Csv.writerow (dict_cells (FileRecord.to_dict r)) +:+ text)
        "" (sorted_by_path records).

(** The table a list of records stands for: each record under its path, a
    later record replacing an earlier one with the same path. *)
Definition table_of (records : list FileRecord.t) : gmap string FileRecord.t :=
  foldl (λ t r, <[FileRecord.fullpath r := r]> t) ∅ records.

(** *** Vocabulary of the round trip *)

Definition no_cr (s : string) : bool :=
  str_all (λ c, negb (bool_decide (c = CR))) s.

(** A cell the reader accepts: within [csv.field_size_limit()]. *)
Definition within_limit (f : string) : bool :=
  bool_decide (Z.of_nat (String.length f) ≤ Csv.field_limit)%Z.

(** A cell that survives the text file: no carriage return, and within the
    limit of the reader. *)
Definition csv_safe (f : string) : bool := no_cr f && within_limit f.

Definition record_cells (r : FileRecord.t) : list string :=
  [FileRecord.creation r; FileRecord.size r; FileRecord.fullpath r;
   FileRecord.added r; FileRecord.removed r; FileRecord.wayback_url r].

(** A record as the scripts build them: [added] is never empty, and every
    cell survives the text file. *)
Definition record_ok (r : FileRecord.t) : bool :=
  bool_decide (FileRecord.added r ≠ "") && forallb csv_safe (record_cells r).

(** The lines a reader is given when the current line has characters
    already: what follows continues that line. *)
Definition lines_from (pending : bool) (s : string) : list string :=
  if pending
  then match file_lines s with [] => [""] | lines => lines end
  else file_lines s.

(** Whether a line is under way after the characters of [s]. *)
Fixpoint pending_after (pending : bool) (s : string) : bool :=
  match s with
  | "" => pending
  | String c s' => pending_after (negb (bool_decide (c = LF))) s'
  end.

(** The text of rows once the line ends are translated. *)
Definition rows_text (rows : list (list string)) : string :=
  foldr (λ cells text, Csv.join_fields cells +:+ String LF text) "" rows.

(** The text of rows as the writer leaves it. *)
Definition crlf_text (rows : list (list string)) : string :=
  foldr (λ cells text, Csv.writerow cells +:+ text) "" rows.

Definition path_entry (r : FileRecord.t) : string * FileRecord.t :=
  (FileRecord.fullpath r, r).

(** More sample data: a record whose [added] field is empty. *)
Definition record_undated : FileRecord.t :=
  FileRecord.mk "2023-05-01 08:00:00" "100" "x" "" "" "".

(** A cell that is missing, [None] or empty: false for Python's [or]. *)
Definition cell_empty (cell : option (option string)) : bool :=
  match cell with
  | Some (Some s) => bool_decide (s = "")
  | _ => true
  end.

(** A table file with one row whose [added], [removed] and [wayback_url]
    cells are empty, and one whose header has no such columns. *)
Definition text_undated : string :=
  "creation,size,fullpath,added,removed,wayback_url"
  +:+ String LF ("2023-05-01 08:00:00,100,x,,," +:+ str_single LF).

Definition text_three_columns : string :=
  "creation,size,fullpath"
  +:+ String LF ("2023-05-01 08:00:00,100,x" +:+ str_single LF).

(** ** Listing source ([fetch_s3_listing]) *)






(** ** The sync job *)

Inductive sync_outcome : Type :=
| Synced (csv : string) (new_urls removed_urls : nat)
| SyncError (e : exn).

(** [sync_files]: [s3_lines] is what [fetch_s3_listing] returned, [file]
    the text of [all_keys.csv] before the run ([None] when there is none).
    The outcome is the text of [all_keys.csv] after the run and the two
    counters written to [sync_stats.txt]; an exception of the load ends the
    run before anything is written. The clock is read once. *)
Definition sync_files (now : datetime) (s3_lines : list string)
    (file : option string) (initial_crawl : bool) : sync_outcome :=
  let file_data := parse_listing s3_lines in
  match load_existing_csv now file with
  | Raises e => SyncError e
  | Ok existing_records =>
      let out := reconcile initial_crawl now file_data existing_records in
      Synced (save_csv (updated_records out)) (new_urls out) (removed_urls out)
  end.

(** Sample data: a record with a carriage return in its path. *)
Definition record_cr : FileRecord.t :=
  FileRecord.mk "2023-05-01 08:00:00" "100"
    ("a" +:+ String CR "b") "2023-05-02" "" "".

Definition record_lf : FileRecord.t :=
  FileRecord.mk "2023-05-01 08:00:00" "100"
    ("a" +:+ String LF "b") "2023-05-02" "" "".

(** ** Archive submitter ([archive_files.py]) *)

Module Archive.

(** A row as [csv.DictReader] yields it: column name to cell. *)
Abbreviation row := (gmap string string).

(** What [urllib.request.urlopen] does with one request: a response with
    its [Content-Location] header and final URL, an [HTTPError] with its
    code, or any other exception ([URLError], a timeout, ...). *)
Inductive response : Type :=
| Success (content_location : option string) (final_url : string)
| HTTPError (code : nat)
| OtherError.

(** The archiving endpoint and the wall clock, as the script sees them:
    the answer to the n-th request and the seconds it takes. The clock
    moves with the requests and the sleeps only. *)
Record world : Type := {
  answer : nat → string → response;
  elapsed : nat → Z
}.

Inductive event : Type :=
| Request (save_url : string)
| Sleep (seconds : Z)
| SaveTable (records : list row)
| SaveStats (new_archives already_archived failed : nat).

Record state : Type := {
  records : list row;
  archived : nat;
  skipped : nat;
  clock : Z;
  requests : nat;
  trace : list event
}.

Inductive outcome : Type :=
| Finished (st : state)
| KeyError (key : string) (st : state).

(** Truth value of [row.get(key)]: a missing cell and an empty cell are
    both false. *)
Definition truthy (cell : option string) : bool :=
  match cell with
  | Some s => bool_decide (s ≠ "")
  | None => false
  end.

Definition fieldnames : list string :=
  ["creation"; "size"; "fullpath"; "added"; "removed"; "wayback_url"].

(** [csv.DictWriter.writerows] raises [ValueError] on a row with a key
    that is not a field name. *)
Definition writable (rows : list row) : bool :=
  forallb (λ r : row, bool_decide (dom r ⊆ list_to_set fieldnames)) rows.

Definition sleep (seconds : Z) (st : state) : state :=
  {| records := records st; archived := archived st; skipped := skipped st;
     clock := (clock st + seconds)%Z; requests := requests st;
     trace := trace st ++ [Sleep seconds] |}.

Definition log (evs : list event) (st : state) : state :=
  {| records := records st; archived := archived st; skipped := skipped st;
     clock := clock st; requests := requests st; trace := trace st ++ evs |}.

Definition save_url (fullpath : string) : string :=
  "https://web.archive.org/save/" +:+ "http://download.tplinkcloud.com/"
    +:+ fullpath.

(** The request of one record: the clock moves by the time it takes. *)
Definition send (w : world) (url : string) (st : state) : response * state :=
  (answer w (requests st) url,
   {| records := records st; archived := archived st; skipped := skipped st;
      clock := (clock st + elapsed w (requests st))%Z;
      requests := S (requests st);
      trace := trace st ++ [Request url] |}).

(** The success branch: the URL is stored in the row, the counter is
    incremented, then the table and the counters are written. A
    [ValueError] of the writer is caught by [except Exception]. *)
Definition on_success (i : nat) (r : row) (content_location : option string)
    (final_url : string) (st : state) : state :=
  let url :=
    if truthy content_location
    then "https://web.archive.org" +:+ default "" content_location
    else final_url in
  let records' := <[i := <["wayback_url" := url]> r]> (records st) in
  let st' :=
    {| records := records'; archived := S (archived st); skipped := skipped st;
       clock := clock st; requests := requests st; trace := trace st |} in
  if writable records'
  then log [SaveTable records'; SaveStats (archived st') (skipped st') 0] st'
  else st'.

(** [for i, row in enumerate(records)]: [indices] is what is left of the
    enumeration. [break] ends the loop, [continue] goes to the next index,
    the [KeyError] of [row['fullpath']] is not caught. *)
Fixpoint loop (w : world) (timeout start_time : Z) (indices : list nat)
    (st : state) : outcome :=
  match indices with
  | [] => Finished st
  | i :: rest =>
      if bool_decide (clock st - start_time > timeout)%Z then Finished st
      else
        match records st !! i with
        | None => Finished st
        | Some r =>
            if truthy (r !! "wayback_url") then
              loop w timeout start_time rest
                {| records := records st; archived := archived st;
                   skipped := S (skipped st); clock := clock st;
                   requests := requests st; trace := trace st |}
            else if truthy (r !! "removed") then
              loop w timeout start_time rest st
            else
              match r !! "fullpath" with
              | None => KeyError "fullpath" st
              | Some fullpath =>
                  let '(resp, st1) := send w (save_url fullpath) st in
                  match resp with
                  | Success content_location final_url =>
                      loop w timeout start_time rest
                        (sleep 2 (on_success i r content_location final_url st1))
                  | HTTPError code =>
                      if decide (code = 429)
                      then loop w timeout start_time rest (sleep 60 st1)
                      else loop w timeout start_time rest (sleep 2 st1)
                  | OtherError =>
                      loop w timeout start_time rest (sleep 2 st1)
                  end
              end
        end
  end.

Inductive exit : Type :=
| Return (code : nat) (st : state)
| Uncaught (st : state).

(** [main]: [table] is the content of [all_keys.csv] as rows, [None] when
    the file does not exist; [start_time] is the clock when the loop
    starts. *)
Definition main (w : world) (timeout start_time : Z)
    (table : option (list row)) : exit :=
  let st0 :=
    {| records := default [] table; archived := 0; skipped := 0;
       clock := start_time; requests := 0; trace := [SaveStats 0 0 0] |} in
  match table with
  | None => Return 1 st0
  | Some rows =>
      match loop w timeout start_time (seq 0 (length rows)) st0 with
      | KeyError _ st => Uncaught st
      | Finished st =>
          if writable (records st)
          then Return 0 (log [SaveTable (records st);
                              SaveStats (archived st) (skipped st) 0] st)
          else Uncaught st
      end
  end.

(** The requests of a run, in order. *)
Definition requests_of (tr : list event) : list string :=
  omap (λ e, match e with Request u => Some u | _ => None end) tr.

Definition final_state (e : exit) : state :=
  match e with Return _ st | Uncaught st => st end.

(** Sample rows: two pending records. *)
Definition row_of (fullpath wayback_url : string) : row :=
  list_to_map [("creation", "2024-01-01 10:00:00"); ("size", "1");
               ("fullpath", fullpath); ("added", "2024-01-02");
               ("removed", ""); ("wayback_url", wayback_url)].

(** An endpoint that throttles the first request and accepts the others. *)
Definition throttle_first : world :=
  {| answer := λ n url,
       match n with
       | 0 => HTTPError 429
       | _ => Success (Some ("/web/2024/" +:+ url)) url
       end;
     elapsed := λ _, 1%Z |}.

End Archive.

(** Every counter file the submitter writes reports zero failures: the
    script keeps no failure count. *)
Definition no_failure_counted (tr : list Archive.event) : Prop :=
  ∀ a s f, Archive.SaveStats a s f ∈ tr → f = 0.

(** *** Vocabulary of the submitter's properties *)

(** A row the submitter sends: not archived yet and not removed. *)
Definition archive_pending (r : Archive.row) : bool :=
  negb (Archive.truthy (r !! "wayback_url"))
  && negb (Archive.truthy (r !! "removed")).

Definition outcome_state (o : Archive.outcome) : Archive.state :=
  match o with Archive.Finished st | Archive.KeyError _ st => st end.

(** The URL the success branch stores: the [Content-Location] header
    behind the host of the archive when the header is there and not empty,
    the final URL of the response otherwise. *)
Definition wayback_of (content_location : option string) (final_url : string)
    : string :=
  if Archive.truthy content_location
  then "https://web.archive.org" +:+ default "" content_location
  else final_url.

(** [r'] is the pending row [r] after an accepted request for its path. *)
Definition archived_from (w : Archive.world) (r r' : Archive.row) : Prop :=
  archive_pending r = true
  ∧ ∃ fullpath n cl fu,
      r !! "fullpath" = Some fullpath
      ∧ Archive.answer w n (Archive.save_url fullpath) = Archive.Success cl fu
      ∧ r' = <["wayback_url" := wayback_of cl fu]> r.

(** The rows of a run against the rows of the table it started from: as
    many, in the same order, each one untouched or a pending row with the
    URL of an accepted request in its [wayback_url] cell. *)
Definition rows_kept (w : Archive.world) (rows records : list Archive.row)
    : Prop :=
  length records = length rows
  ∧ ∀ i r', records !! i = Some r' →
      ∃ r, rows !! i = Some r ∧ (r' = r ∨ archived_from w r r').

(** The request [u] is the one of row [j] of the table, a pending row. *)
Definition requested (rows : list Archive.row) (j : nat) (u : string) : Prop :=
  ∃ r fullpath, rows !! j = Some r ∧ archive_pending r = true
                ∧ r !! "fullpath" = Some fullpath
                ∧ u = Archive.save_url fullpath.

(** Row [j] of the table has an archive URL already. *)
Definition already_archived (rows : list Archive.row) (j : nat) : Prop :=
  ∃ r, rows !! j = Some r ∧ Archive.truthy (r !! "wayback_url") = true.

Definition accepted (w : Archive.world) (n : nat) (u : string) : bool :=
  match Archive.answer w n u with
  | Archive.Success _ _ => true
  | _ => false
  end.

(** The number of accepted requests among [us], sent as the requests
    number [n], [n + 1], ... *)
Fixpoint successes (w : Archive.world) (n : nat) (us : list string) : nat :=
  match us with
  | [] => 0
  | u :: us' => (if accepted w n u then 1 else 0) + successes w (S n) us'
  end.

(** What the loop does between two of its states while it goes through
    [indices]: the rows are kept, every table written is made of kept rows,
    the requests are those of pending rows of [indices], one at most for
    each and in their order, and the two counters count the accepted
    requests and rows that had their URL before the run. *)
Definition run_from (w : Archive.world) (rows : list Archive.row)
    (indices : list nat) (st st' : Archive.state) : Prop :=
  rows_kept w rows (Archive.records st')
  ∧ (∀ recs, Archive.SaveTable recs ∈ Archive.trace st' →
       Archive.SaveTable recs ∈ Archive.trace st ∨ rows_kept w rows recs)
  ∧ ∃ js ks us,
      js `sublist_of` indices ∧ ks `sublist_of` indices
      ∧ Forall2 (requested rows) js us
      ∧ Forall (already_archived rows) ks
      ∧ Archive.requests_of (Archive.trace st')
        = Archive.requests_of (Archive.trace st) ++ us
      ∧ Archive.requests st' = Archive.requests st + length us
      ∧ Archive.archived st'
        = Archive.archived st + successes w (Archive.requests st) us
      ∧ Archive.skipped st' = Archive.skipped st + length ks.



(** ** The table file between the two scripts *)







(* ===================================================================== *)
(** * Properties *)

(** ** Strings *)

Lemma append_nil_l (s : string) : "" +:+ s = s.
Proof. reflexivity. Qed.

Lemma append_cons (c : ascii) (s t : string) :
  String c s +:+ t = String c (s +:+ t).
Proof. reflexivity. Qed.

Lemma append_nil_r (s : string) : s +:+ "" = s.
Proof. induction s as [|c s IH]; [done|]. by rewrite append_cons, IH. Qed.

Lemma append_assoc (s t u : string) : (s +:+ t) +:+ u = s +:+ t +:+ u.
Proof. induction s as [|c s IH]; [done|]. by rewrite !append_cons, IH. Qed.

Lemma append_length (s t : string) :
  String.length (s +:+ t) = String.length s + String.length t.
Proof. induction s as [|c s IH]; [done|]. rewrite append_cons. simpl. by rewrite IH. Qed.

Lemma str_all_append p (s t : string) :
  str_all p (s +:+ t) = str_all p s && str_all p t.
Proof.
  induction s as [|c s IH]; [done|].
  rewrite append_cons. simpl. rewrite IH. by rewrite andb_assoc.
Qed.

(** ** Listing parser *)

Lemma lstrip_blanks (b s : string) :
  str_all is_space b = true → lstrip (b +:+ s) = lstrip s.
Proof.
  induction b as [|c b IH]; [done|]. simpl. intros [Hc Hb]%andb_true_iff.
  rewrite Hc. auto.
Qed.

Lemma lstrip_remainder (p : string) : is_remainder p = true → lstrip p = p.
Proof. destruct p as [|c p]; [done|]. simpl. by intros ->%negb_true_iff. Qed.

Lemma lstrip_length (s : string) : String.length (lstrip s) ≤ String.length s.
Proof.
  induction s as [|c s IH]; [done|]. simpl.
  destruct (is_space c); simpl; lia.
Qed.

Lemma take_word_word (w s : string) :
  str_all (λ c, negb (is_space c)) w = true →
  (s = "" ∨ ∃ c s', s = String c s' ∧ is_space c = true) →
  take_word (w +:+ s) = (w, s).
Proof.
  intros Hw Hs. induction w as [|c w IH].
  - rewrite append_nil_l. destruct Hs as [->|(c & s' & -> & Hc)]; [done|].
    simpl. by rewrite Hc.
  - simpl in Hw. apply andb_true_iff in Hw as [Hc Hw].
    rewrite append_cons. simpl. apply negb_true_iff in Hc. rewrite Hc.
    by rewrite IH.
Qed.

Lemma take_word_length (c : ascii) (s : string) :
  is_space c = false →
  String.length (take_word (String c s)).2 ≤ String.length s.
Proof.
  intros Hc. simpl. rewrite Hc.
  destruct (take_word s) as [w rest] eqn:E. simpl.
  clear c Hc. revert w rest E.
  induction s as [|c s IH]; intros w rest E; simpl in E.
  - by inversion E.
  - destruct (is_space c).
    + inversion E; subst. simpl. lia.
    + destruct (take_word s) as [w' rest'] eqn:E'. inversion E; subst.
      specialize (IH _ _ eq_refl). simpl. lia.
Qed.

Lemma blank_starts_with_space (b s : string) :
  is_blank b = true → ∃ c s', b +:+ s = String c s' ∧ is_space c = true.
Proof.
  unfold is_blank. intros [Hne Hb]%andb_true_iff.
  apply bool_decide_eq_true in Hne.
  destruct b as [|c b]; [done|]. simpl in Hb.
  apply andb_true_iff in Hb as [Hc _]. rewrite append_cons. eauto.
Qed.

(** One step of [split] with splits left: a word, then blanks. *)
Lemma split_ws_word (m : nat) (lead w b s : string) :
  str_all is_space lead = true → is_word w = true → is_blank b = true →
  split_ws (S m) (lead +:+ w +:+ b +:+ s) = w :: split_ws m (b +:+ s).
Proof.
  intros Hl Hw Hb. unfold is_word in Hw.
  apply andb_true_iff in Hw as [Hne Hw]. apply bool_decide_eq_true in Hne.
  assert (Htw : take_word (w +:+ b +:+ s) = (w, b +:+ s)).
  { apply take_word_word; [done|]. right. by apply blank_starts_with_space. }
  cbn [split_ws]. rewrite lstrip_blanks by done.
  destruct w as [|c w]; [done|].
  assert (Hc : is_space c = false).
  { simpl in Hw. apply andb_true_iff in Hw as [Hc _]. by apply negb_true_iff. }
  rewrite append_cons in *. cbn [lstrip]. rewrite Hc. by rewrite Htw.
Qed.

Lemma split_ws_last (b p : string) :
  str_all is_space b = true → is_remainder p = true →
  split_ws 0 (b +:+ p) = [p].
Proof.
  intros Hb Hp. simpl. rewrite lstrip_blanks, lstrip_remainder by done.
  by destruct p.
Qed.

Lemma is_blank_all (b : string) : is_blank b = true → str_all is_space b = true.
Proof. unfold is_blank. by intros [_ ?]%andb_true_iff. Qed.

Lemma parse_s3_line_shape (lead d b1 t b2 sz b3 p : string) :
  str_all is_space lead = true →
  is_word d = true → is_blank b1 = true →
  is_word t = true → is_blank b2 = true →
  is_word sz = true → is_blank b3 = true →
  is_remainder p = true →
  parse_s3_line (lead +:+ d +:+ b1 +:+ t +:+ b2 +:+ sz +:+ b3 +:+ p)
  = if endswith p "/" then None else Some (d +:+ " " +:+ t, sz, p).
Proof.
  intros Hl Hd H1 Ht H2 Hs H3 Hp. unfold parse_s3_line.
  rewrite (split_ws_word 2 lead d b1) by done.
  rewrite <- (append_nil_l (b1 +:+ _)), <- append_assoc.
  rewrite (split_ws_word 1 ("" +:+ b1) t b2); [|by apply is_blank_all|done..].
  rewrite <- (append_nil_l (b2 +:+ _)), <- append_assoc.
  rewrite (split_ws_word 0 ("" +:+ b2) sz b3); [|by apply is_blank_all|done..].
  rewrite split_ws_last; [done|by apply is_blank_all|done].
Qed.

(** The cap: a bounded split has [min (maxsplit + 1) (number of tokens)]
    items. *)
Lemma split_ws_length_le (n m : nat) (s : string) :
  n ≤ m → length (split_ws n s) = min (S n) (length (split_ws m s)).
Proof.
  revert m s. induction n as [|n IH]; intros m s Hnm.
  - destruct m as [|m]; simpl; destruct (lstrip s) as [|c s1]; try done.
    by destruct (take_word (String c s1)).
  - destruct m as [|m]; [lia|]. cbn [split_ws].
    destruct (lstrip s) as [|c s1]; [done|].
    destruct (take_word (String c s1)) as [w rest]. cbn [length].
    rewrite (IH m rest) by lia. lia.
Qed.

Lemma split_ws_saturated (n k : nat) (s : string) :
  String.length s ≤ n → split_ws (n + k) s = split_ws n s.
Proof.
  revert s. induction n as [|n IH]; intros s Hn.
  - destruct s; [|simpl in Hn; lia]. by destruct k.
  - simpl. pose proof (lstrip_length s) as Hl.
    destruct (lstrip s) as [|c s1] eqn:E; [done|].
    destruct (is_space c) eqn:Hc.
    { exfalso. clear -E Hc. induction s as [|c' s IH]; [done|].
      simpl in E. destruct (is_space c') eqn:Hc'; [auto|]. congruence. }
    pose proof (take_word_length c s1 Hc) as Hr.
    destruct (take_word (String c s1)) as [w rest]. simpl in *.
    rewrite IH; [done|lia].
Qed.

Lemma split_ws_cap (n : nat) (line : string) :
  length (split_ws n line) = min (S n) (length (tokens line)).
Proof.
  unfold tokens. destruct (decide (n ≤ String.length line)) as [Hle|Hgt].
  - by apply split_ws_length_le.
  - replace n with (String.length line + (n - String.length line)) at 1 by lia.
    rewrite split_ws_saturated by done.
    pose proof (split_ws_length_le (String.length line) (String.length line)
                  line (le_n _)). lia.
Qed.

Lemma parse_s3_line_few_tokens (line : string) :
  length (tokens line) < 4 → parse_s3_line line = None.
Proof.
  intros Hlt. unfold parse_s3_line.
  pose proof (split_ws_cap 3 line) as Hcap.
  destruct (split_ws 3 line) as [|a [|b [|c [|d [|e l]]]]]; try done.
  cbn [length] in Hcap. lia.
Qed.

(** C9. The listing parser: the split is capped at four items with the
    remainder, blanks included, kept whole as the path; a line with fewer
    than four tokens is not a data line; a path ending in [/] is not a data
    line; otherwise the result is the date and the time joined by one
    space, the size and the path. The scenario line of the specification
    parses as stated. *)
Theorem C9_parse_s3_line :
  (∀ line, length (split_ws 3 line) = min 4 (length (tokens line)))
  ∧ (∀ line, length (tokens line) < 4 → parse_s3_line line = None)
  ∧ (∀ lead d b1 t b2 sz b3 p,
        str_all is_space lead = true →
        is_word d = true → is_blank b1 = true →
        is_word t = true → is_blank b2 = true →
        is_word sz = true → is_blank b3 = true →
        is_remainder p = true →
        parse_s3_line (lead +:+ d +:+ b1 +:+ t +:+ b2 +:+ sz +:+ b3 +:+ p)
        = if endswith p "/" then None else Some (d +:+ " " +:+ t, sz, p))
  ∧ parse_s3_line
      "2024-01-01 10:00:00      1234 Router_Setup/firmware/TL-WR841N_V14_en_1.2.3.bin"
    = Some ("2024-01-01 10:00:00", "1234",
            "Router_Setup/firmware/TL-WR841N_V14_en_1.2.3.bin").
Proof.
  split; [apply (split_ws_cap 3)|].
  split; [apply parse_s3_line_few_tokens|].
  split; [apply parse_s3_line_shape|reflexivity].
Qed.

Lemma C9_parse_s3_line_witness :
  parse_s3_line " 2024-05-06  07:08:09 42 docs/User Guide.pdf"
  = Some ("2024-05-06 07:08:09", "42", "docs/User Guide.pdf")
  ∧ parse_s3_line "2024-05-06 07:08:09 0   docs/archive/" = None
  ∧ parse_s3_line "2024-05-06 07:08:09 42" = None.
Proof.
  destruct C9_parse_s3_line as (_ & Hfew & Hshape & _).
  split; [|split].
  - exact (Hshape " " "2024-05-06" "  " "07:08:09" " " "42" " "
             "docs/User Guide.pdf" eq_refl eq_refl eq_refl eq_refl eq_refl
             eq_refl eq_refl eq_refl).
  - exact (Hshape "" "2024-05-06" " " "07:08:09" " " "0" "   "
             "docs/archive/" eq_refl eq_refl eq_refl eq_refl eq_refl
             eq_refl eq_refl eq_refl).
  - apply Hfew. vm_compute. lia.
Defined.

(** ** Path classifier *)

Lemma substring_prefix (r t : string) :
  String.substring 0 (String.length r) (r +:+ t) = r.
Proof.
  induction r as [|c r IH]; simpl.
  - by destruct t.
  - by rewrite IH.
Qed.

Lemma run_char_not_space (c : ascii) : is_run_char c = true → is_space c = false.
Proof.
  destruct (is_space c) eqn:Hs; [|done].
  destruct c as [[] [] [] [] [] [] [] []]; done.
Qed.

Section MatcherFacts.
Context {A : Type}.
Implicit Types k : nat → string → option A.

(** The lazy star walks over a run while the continuation fails on it. *)
Lemma lazy_star_skip p k (pos : nat) (r t : string) :
  (∀ pos' c s', p c = true → k pos' (String c s') = None) →
  str_all p r = true →
  lazy_star p k pos (r +:+ t) = lazy_star p k (pos + String.length r) t.
Proof.
  intros Hk. revert pos. induction r as [|c r IH]; intros pos Hr.
  - simpl. by rewrite Nat.add_0_r.
  - simpl in Hr. apply andb_true_iff in Hr as [Hc Hr].
    rewrite append_cons. cbn [lazy_star]. rewrite (Hk _ _ _ Hc), Hc.
    rewrite IH by done. simpl. f_equal. lia.
Qed.

Lemma lazy_star_here p k (pos : nat) (s : string) (a : A) :
  k pos s = Some a → lazy_star p k pos s = Some a.
Proof. intros Hk. destruct s; simpl; by rewrite Hk. Qed.

(** The greedy star takes every blank when the continuation succeeds
    after the last one. *)
Lemma greedy_star_all p k (pos : nat) (b t : string) (a : A) :
  str_all p b = true →
  match t with "" => True | String c _ => p c = false end →
  k (pos + String.length b) t = Some a →
  greedy_star p k pos (b +:+ t) = Some a.
Proof.
  revert pos. induction b as [|c b IH]; intros pos Hb Ht Hk.
  - simpl in *. rewrite Nat.add_0_r in Hk.
    destruct t as [|c t]; simpl; [done|]. by rewrite Ht.
  - simpl in Hb. apply andb_true_iff in Hb as [Hc Hb].
    rewrite append_cons. cbn [greedy_star]. rewrite Hc.
    rewrite (IH (S pos)); [done|done|done|].
    rewrite <- Hk. f_equal. simpl. lia.
Qed.

End MatcherFacts.

Lemma space_not_alnum (c : ascii) :
  is_space c = true → to_lower c = c ∧ is_digit c = false.
Proof. destruct c as [[] [] [] [] [] [] [] []]; try discriminate; done. Qed.

Lemma marker_starts_nonblank (m tail : string) :
  is_marker m = true →
  match m +:+ tail with "" => True | String c _ => is_space c = false end.
Proof.
  unfold is_marker. intros Hm.
  destruct m as [|c m]; [done|]. rewrite append_cons.
  destruct (is_space c) eqn:Hs; [|done]. exfalso.
  destruct (space_not_alnum c Hs) as [Hlow Hdig].
  apply orb_true_iff in Hm as [Hm|Hm].
  - destruct m as [|d [|e m]]; [congruence| |done].
    apply andb_true_iff in Hm as [Hv _]. apply bool_decide_eq_true in Hv.
    rewrite Hlow in Hv. by subst c.
  - apply bool_decide_eq_true in Hm. simpl in Hm. rewrite Hlow in Hm.
    rewrite !elem_of_cons in Hm.
    destruct Hm as [Hm|[Hm|[Hm|[Hm|Hm]]]];
      [by inversion Hm; subst c..|by apply elem_of_nil in Hm].
Qed.

Lemma rmatch_lit_ci (lit s : string) (pos : nat) (g : option span) :
  rmatch (lit_ci lit) (λ _ _ g', Some g') pos s g
  = if ci_prefix lit s then Some g else None.
Proof.
  revert s pos. induction lit as [|c l IH]; intros s pos; [done|].
  cbn [lit_ci rmatch chr_ci ci_prefix]. destruct s as [|x s']; [done|].
  destruct (bool_decide (to_lower x = to_lower c)); [|done]. apply IH.
Qed.

Lemma ci_prefix_lower (lit m tail : string) :
  str_to_lower m = str_to_lower lit → ci_prefix lit (m +:+ tail) = true.
Proof.
  revert m. induction lit as [|c l IH]; intros m Hm; [done|].
  destruct m as [|x m]; [done|]. simpl in Hm. inversion Hm as [[Hx Hl]].
  rewrite append_cons. cbn [ci_prefix]. rewrite bool_decide_eq_true_2 by done.
  by apply IH.
Qed.

(** What the alternation of markers accepts at the head of [s]. *)
Lemma rmatch_marker (s : string) (pos : nat) (g : option span) :
  rmatch marker_re (λ _ _ g', Some g') pos s g
  = if match s with String d _ => is_digit d | "" => false end
       || ci_prefix "en_" s
       || match s with
          | String v (String d _) =>
              bool_decide (to_lower v = "v"%char) && is_digit d
          | _ => false
          end
       || ci_prefix "Build" s || ci_prefix "Rel" s || ci_prefix "dist" s
    then Some g else None.
Proof.
  unfold marker_re. cbn [rmatch]. rewrite !rmatch_lit_ci.
  destruct s as [|c s]; [done|].
  destruct (is_digit c); [done|]. cbn [orb].
  destruct (ci_prefix "en_" (String c s)); [done|]. unfold chr_ci.
  cbn [orb rmatch]. replace (to_lower "v") with "v"%char by done.
  destruct (bool_decide (to_lower c = "v"%char)); cbn [andb].
  - destruct s as [|d s].
    + cbn [orb]. by repeat destruct (ci_prefix _ _).
    + destruct (is_digit d); [done|]. cbn [orb].
      by repeat destruct (ci_prefix _ _).
  - replace (match s with "" | _ => false end) with false by by destruct s.
    cbn [orb]. by repeat destruct (ci_prefix _ _).
Qed.

Lemma rmatch_marker_ok (m tail : string) (pos : nat) (g : option span) :
  is_marker m = true →
  rmatch marker_re (λ _ _ g', Some g') pos (m +:+ tail) g = Some g.
Proof.
  intros Hm. rewrite rmatch_marker.
  match goal with |- (if ?b then _ else _) = _ => assert (b = true) as ->; [|done] end.
  unfold is_marker in Hm. apply orb_true_iff in Hm as [Hm|Hm].
  - destruct m as [|c [|d [|e m]]]; [done| | |done].
    + rewrite append_cons. by rewrite Hm.
    + rewrite !append_cons. rewrite Hm. by rewrite !orb_true_r.
  - apply bool_decide_eq_true in Hm. rewrite !elem_of_cons in Hm.
    destruct Hm as [Hm|[Hm|[Hm|[Hm|Hm]]]]; [..|by apply elem_of_nil in Hm].
    + rewrite (ci_prefix_lower "en_" m tail) by done. by rewrite !orb_true_r.
    + rewrite (ci_prefix_lower "Build" m tail) by done. by rewrite !orb_true_r.
    + rewrite (ci_prefix_lower "Rel" m tail) by done. by rewrite !orb_true_r.
    + rewrite (ci_prefix_lower "dist" m tail) by done. by rewrite !orb_true_r.
Qed.

(** The first pattern on its shape: the run, blanks, a marker. *)
Lemma first_attempt_shape (run ws m tail : string) :
  is_run run = true → is_blank ws = true → is_marker m = true →
  first_attempt (run +:+ ws +:+ m +:+ tail) = Some run.
Proof.
  intros Hrun Hws Hm. unfold first_attempt, re_match_group1, first_pattern.
  destruct run as [|c0 r]; [done|]. simpl in Hrun.
  apply andb_true_iff in Hrun as [Hc0 Hr].
  unfold is_blank in Hws. apply andb_true_iff in Hws as [Hne Hws].
  apply bool_decide_eq_true in Hne. destruct ws as [|w0 ws]; [done|].
  simpl in Hws. apply andb_true_iff in Hws as [Hw0 Hws].
  rewrite append_cons. cbn [rmatch]. rewrite Hc0.
  rewrite lazy_star_skip; [|intros pos' c s' Hc|done].
  2:{ apply run_char_not_space in Hc. by rewrite Hc. }
  rewrite append_cons.
  erewrite lazy_star_here.
  2:{ rewrite Hw0. apply greedy_star_all; [done| |].
      - by apply marker_starts_nonblank.
      - by apply rmatch_marker_ok. }
  rewrite <- (append_cons w0), <- (append_cons c0).
  assert (1 + String.length r - 0 = String.length (String c0 r)) as ->
    by (simpl; lia).
  by rewrite substring_prefix.
Qed.

Lemma last_of_two {X} (l : list X) : length l = 2 → last l = l !! 1.
Proof. by destruct l as [|a [|b [|c l]]]. Qed.

(** C7 (as amended). The first pattern requires the run to start with a
    letter and to be followed by at least one blank before the digit or the
    marker. On every file name of that shape the first attempt matches,
    group 1 is the run, and the classifier returns the run without its
    trailing hyphens as the product, whatever the directory part is. *)
Theorem C7_first_pattern (fullpath filename run ws m tail : string) :
  2 ≤ length (split_on "/" fullpath) →
  last (split_on "/" fullpath) = Some filename →
  filename = run +:+ ws +:+ m +:+ tail →
  is_run run = true → is_blank ws = true → is_marker m = true →
  first_attempt filename = Some run
  ∧ extract_type_and_product fullpath
    = Some (default "" (split_on "/" fullpath !! 0),
            (if decide (3 ≤ length (split_on "/" fullpath))
             then default "" (split_on "/" fullpath !! 1) else ""),
            rstrip is_hyphen run).
Proof.
  intros Hlen Hlast -> Hrun Hws Hm.
  pose proof (first_attempt_shape run ws m tail Hrun Hws Hm) as Hfirst.
  split; [done|]. unfold extract_type_and_product.
  destruct (decide (length (split_on "/" fullpath) < 2)) as [?|_]; [lia|].
  destruct (decide (3 ≤ length (split_on "/" fullpath))) as [H3|H3].
  - rewrite Hlast. simpl. by rewrite Hfirst.
  - rewrite <- last_of_two by lia. rewrite Hlast. simpl. by rewrite Hfirst.
Qed.

Lemma C7_first_pattern_witness :
  first_attempt "Archer-C7- V2 User Guide.pdf" = Some "Archer-C7-"
  ∧ extract_type_and_product "Manual/Archer-C7- V2 User Guide.pdf"
    = Some ("Manual", "", "Archer-C7").
Proof.
  exact (C7_first_pattern "Manual/Archer-C7- V2 User Guide.pdf"
           "Archer-C7- V2 User Guide.pdf" "Archer-C7-" " " "V2"
           " User Guide.pdf" ltac:(vm_compute; lia) eq_refl eq_refl
           eq_refl eq_refl eq_refl).
Defined.

(** C7, as the specification words it, fails: the run [Archer-C7] is
    followed at once by the version marker [v2], and the first pattern does
    not match because no blank separates them; the second pattern then
    yields another product. *)
Lemma C7_counterexample :
  spec_first_shape "Archer-C7v2_en.bin" "Archer-C7"
  ∧ first_attempt "Archer-C7v2_en.bin" = None
  ∧ extract_type_and_product "Router/Archer-C7v2_en.bin"
    = Some ("Router", "", "Archer-C7v2").
Proof.
  split; [|split; by vm_compute].
  exists "v2", "_en.bin". repeat split; done.
Qed.

Example extract_scenario :
  extract_type_and_product "Router_Setup/firmware/TL-WR841N_V14_en_1.2.3.bin"
  = Some ("Router_Setup", "firmware", "TL-WR841N").
Proof. by vm_compute. Qed.

Example extract_no_match :
  extract_type_and_product "Manual/readme.txt" = None.
Proof. by vm_compute. Qed.

(** ** Inventory reconciler *)

Section Reconcile.
Context (now : datetime).
Implicit Types file_data : gmap string (string * string).
Implicit Types existing : gmap string FileRecord.t.

Lemma present_fold ad existing st (l : list (string * (string * string))) :
  (foldl (present_step now ad existing) st l).1
  = st.1 ++ (present_record now ad existing <$> l).
Proof.
  revert st. induction l as [|[k [c s]] l IH]; intros st; simpl.
  - by rewrite app_nil_r.
  - rewrite IH. unfold present_step, present_record at 2. simpl.
    destruct (existing !! k); simpl; by rewrite <- app_assoc.
Qed.

Lemma present_fold_count ad existing st (l : list (string * (string * string))) :
  (foldl (present_step now ad existing) st l).2
  = st.2 + length (filter (λ e, existing !! e.1 = None) l).
Proof.
  revert st. induction l as [|[k [c s]] l IH]; intros st; simpl.
  - lia.
  - rewrite IH. unfold present_step. rewrite filter_cons. cbn [fst snd].
    destruct (decide (existing !! k = None)) as [E|E].
    + rewrite E. simpl. lia.
    + destruct (existing !! k); [done|congruence].
Qed.

Lemma absent_fold today file_data st (l : list (string * FileRecord.t)) :
  (foldl (absent_step today file_data) st l).1
  = st.1 ++ ((λ e, absent_record today e.2)
               <$> filter (λ e, e.1 ∉ dom file_data) l).
Proof.
  revert st. induction l as [|[k r] l IH]; intros st; simpl.
  - by rewrite app_nil_r.
  - rewrite IH. unfold absent_step. rewrite filter_cons. cbn [fst snd].
    destruct (decide (k ∈ dom file_data)) as [Hin|Hout].
    + by rewrite decide_False by (intros H; exact (H Hin)).
    + rewrite (decide_True (P := k ∉ dom file_data)) by exact Hout.
      unfold absent_record at 2. cbn [fmap list_fmap snd].
      destruct (decide (FileRecord.removed r = "")); cbn [fst snd];
        by rewrite <- app_assoc.
Qed.

Lemma absent_fold_count today file_data st (l : list (string * FileRecord.t)) :
  (foldl (absent_step today file_data) st l).2
  = st.2 + length (filter (λ e, (e.1 ∉ dom file_data)
                                ∧ FileRecord.removed e.2 = "") l).
Proof.
  revert st. induction l as [|[k r] l IH]; intros st; simpl.
  - lia.
  - rewrite IH. unfold absent_step. rewrite filter_cons. cbn [fst snd].
    destruct (decide (k ∈ dom file_data)) as [Hin|Hout].
    + rewrite decide_False by (intros [H _]; exact (H Hin)). done.
    + destruct (decide (FileRecord.removed r = "")) as [He|Hne]; cbn [fst snd].
      * rewrite decide_True by done. simpl. lia.
      * rewrite decide_False by (intros [_ H]; exact (Hne H)). done.
Qed.

(** The list handed to [save_csv]. *)
Lemma updated_records_eq initial_crawl file_data existing :
  updated_records (reconcile initial_crawl now file_data existing)
  = (present_record now
       (added_date (is_initial_crawl initial_crawl existing) (strftime_Ymd now))
       existing <$> map_to_list file_data)
    ++ (if is_initial_crawl initial_crawl existing then []
        else (λ e, absent_record (strftime_Ymd now) e.2)
               <$> filter (λ e, e.1 ∉ dom file_data) (map_to_list existing)).
Proof.
  unfold reconcile. cbn [updated_records].
  destruct (is_initial_crawl initial_crawl existing); cbn [fst].
  - rewrite present_fold. simpl. by rewrite app_nil_r.
  - rewrite absent_fold, present_fold. done.
Qed.

Lemma elem_of_updated_records initial_crawl file_data existing r' :
  r' ∈ updated_records (reconcile initial_crawl now file_data existing)
  ↔ (∃ k c s, file_data !! k = Some (c, s)
        ∧ r' = present_record now
                 (added_date (is_initial_crawl initial_crawl existing)
                             (strftime_Ymd now))
                 existing (k, (c, s)))
    ∨ (is_initial_crawl initial_crawl existing = false
       ∧ ∃ k r, existing !! k = Some r ∧ file_data !! k = None
                ∧ r' = absent_record (strftime_Ymd now) r).
Proof.
  rewrite updated_records_eq, elem_of_app, list_elem_of_fmap. split.
  - intros [([k [c s]] & -> & Hin)|Habs].
    + left. exists k, c, s. by apply elem_of_map_to_list in Hin.
    + right. destruct (is_initial_crawl initial_crawl existing).
      { by apply elem_of_nil in Habs. }
      split; [done|]. apply list_elem_of_fmap in Habs as ([k r] & -> & Hin).
      apply list_elem_of_filter in Hin as [Hout Hin].
      apply elem_of_map_to_list in Hin. exists k, r.
      split; [done|]. split; [|done]. by apply not_elem_of_dom.
  - intros [(k & c & s & Hk & ->)|(Hmode & k & r & Hk & Hout & ->)].
    + left. exists (k, (c, s)). split; [done|]. by apply elem_of_map_to_list.
    + right. rewrite Hmode. apply list_elem_of_fmap. exists (k, r).
      split; [done|]. apply list_elem_of_filter. split.
      * simpl. by apply not_elem_of_dom.
      * by apply elem_of_map_to_list.
Qed.

End Reconcile.

Lemma strftime_Ymd_nonempty (d : datetime) : strftime_Ymd d ≠ "".
Proof. done. Qed.

Lemma keyed_by_path_singleton (k : string) (r : FileRecord.t) :
  FileRecord.fullpath r = k → keyed_by_path {[k := r]}.
Proof. intros Hk. by apply map_Forall_singleton. Qed.

(** Under the table invariant, the output has one record per path: the one
    the loops build for that path. *)
Lemma updated_records_by_path initial_crawl now
    (file_data : gmap string (string * string))
    (existing : gmap string FileRecord.t) (r' : FileRecord.t) :
  keyed_by_path existing →
  r' ∈ updated_records (reconcile initial_crawl now file_data existing) →
  match file_data !! FileRecord.fullpath r', existing !! FileRecord.fullpath r' with
  | Some (c, s), Some r =>
      r' = FileRecord.set_size (FileRecord.set_creation r c) s
  | Some (c, s), None =>
      r' = FileRecord.init now c s (FileRecord.fullpath r')
             (Some (added_date (is_initial_crawl initial_crawl existing)
                               (strftime_Ymd now))) None None
  | None, Some r =>
      is_initial_crawl initial_crawl existing = false
      ∧ r' = absent_record (strftime_Ymd now) r
  | None, None => False
  end.
Proof.
  intros Hwf Hin. apply elem_of_updated_records in Hin
    as [(k & c & s & Hk & ->)|(Hmode & k & r & Hk & Hout & ->)].
  - unfold present_record. cbn [fst snd].
    destruct (existing !! k) as [r|] eqn:Hr.
    + pose proof (Hwf k r Hr) as Hp. simpl in Hp. simpl.
      rewrite Hp, Hk, Hr. done.
    + simpl. by rewrite Hk, Hr.
  - pose proof (Hwf k r Hk) as Hp. simpl in Hp.
    assert (Hfp : FileRecord.fullpath (absent_record (strftime_Ymd now) r) = k).
    { unfold absent_record. by destruct (decide _). }
    rewrite Hfp, Hout, Hk. done.
Qed.

(** C1 (as amended). In either mode a record whose path is in the snapshot
    is in the output, with its creation and size updated. Outside
    initial-crawl mode every record of the previous table is in the
    output: a record absent from the snapshot is carried over, with
    [removed] set to the run date when it was empty and unmodified
    otherwise; the path, the first-seen date and the archive URL of a
    carried record are those of the previous table. *)
Theorem C1_records_retained (initial_crawl : bool) (now : datetime)
    (file_data : gmap string (string * string))
    (existing : gmap string FileRecord.t) (k : string) (r : FileRecord.t) :
  existing !! k = Some r →
  let out := updated_records (reconcile initial_crawl now file_data existing) in
  (∀ c s, file_data !! k = Some (c, s) →
      FileRecord.set_size (FileRecord.set_creation r c) s ∈ out)
  ∧ (is_initial_crawl initial_crawl existing = false →
     file_data !! k = None →
     (if decide (FileRecord.removed r = "")
      then FileRecord.set_removed r (strftime_Ymd now) else r) ∈ out)
  ∧ (is_initial_crawl initial_crawl existing = false →
     ∃ r', r' ∈ out
           ∧ FileRecord.fullpath r' = FileRecord.fullpath r
           ∧ FileRecord.added r' = FileRecord.added r
           ∧ FileRecord.wayback_url r' = FileRecord.wayback_url r).
Proof.
  intros Hk out. subst out. split; [|split].
  - intros c s Hks. apply elem_of_updated_records. left.
    exists k, c, s. split; [done|]. unfold present_record. simpl. by rewrite Hk.
  - intros Hmode Hout. apply elem_of_updated_records. right.
    split; [done|]. by exists k, r.
  - intros Hmode. destruct (file_data !! k) as [[c s]|] eqn:Hks.
    + exists (FileRecord.set_size (FileRecord.set_creation r c) s).
      split; [|done]. apply elem_of_updated_records. left.
      exists k, c, s. split; [done|]. unfold present_record. simpl.
      by rewrite Hk.
    + exists (absent_record (strftime_Ymd now) r). split.
      * apply elem_of_updated_records. right. split; [done|]. by exists k, r.
      * unfold absent_record. by destruct (decide _).
Qed.

Lemma C1_records_retained_witness :
  FileRecord.set_removed record_x "2024-01-01"
  ∈ updated_records
      (reconcile false new_year_2024 {["y" := ("2024-01-01 10:00:00", "5")]}
                 {["x" := record_x]}).
Proof.
  refine (proj1 (proj2 (C1_records_retained false new_year_2024
            {["y" := ("2024-01-01 10:00:00", "5")]} {["x" := record_x]}
            "x" record_x _)) _ _); reflexivity.
Defined.

(** C1, as the specification words it, fails in initial-crawl mode: with
    the flag set, a record of the previous table whose path is not in the
    snapshot is not in the output at all. *)
Lemma C1_counterexample :
  let existing : gmap string FileRecord.t := {["x" := record_x]} in
  let file_data : gmap string (string * string) :=
    {["y" := ("2024-01-01 10:00:00", "5")]} in
  existing !! "x" = Some record_x
  ∧ updated_records (reconcile true new_year_2024 file_data existing)
    = [FileRecord.mk "2024-01-01 10:00:00" "5" "y" "initial crawl" "" ""]
  ∧ ¬ ∃ r', r' ∈ updated_records (reconcile true new_year_2024 file_data existing)
            ∧ FileRecord.fullpath r' = "x".
Proof.
  assert (Hout : updated_records
            (reconcile true new_year_2024
               ({["y" := ("2024-01-01 10:00:00", "5")]}
                  : gmap string (string * string))
               ({["x" := record_x]} : gmap string FileRecord.t))
          = [FileRecord.mk "2024-01-01 10:00:00" "5" "y" "initial crawl" "" ""])
    by by vm_compute.
  split; [done|]. split; [done|].
  intros (r' & Hin & Hp). rewrite Hout in Hin.
  apply list_elem_of_singleton in Hin. by subst r'.
Qed.

(** C3. A path in both the previous table and the snapshot: the output
    holds its record with [creation] and [size] taken from the snapshot and
    the four other fields unchanged, in either mode; in a table keyed by
    path, this is the only output record of that path. *)
Theorem C3_present_paths_frame (initial_crawl : bool) (now : datetime)
    (file_data : gmap string (string * string))
    (existing : gmap string FileRecord.t) (k c s : string) (r : FileRecord.t) :
  existing !! k = Some r → file_data !! k = Some (c, s) →
  let out := updated_records (reconcile initial_crawl now file_data existing) in
  (∃ r', r' ∈ out
         ∧ FileRecord.creation r' = c ∧ FileRecord.size r' = s
         ∧ FileRecord.fullpath r' = FileRecord.fullpath r
         ∧ FileRecord.added r' = FileRecord.added r
         ∧ FileRecord.removed r' = FileRecord.removed r
         ∧ FileRecord.wayback_url r' = FileRecord.wayback_url r)
  ∧ (keyed_by_path existing →
     ∀ r', r' ∈ out → FileRecord.fullpath r' = k →
           r' = FileRecord.set_size (FileRecord.set_creation r c) s).
Proof.
  intros Hk Hks out. subst out. split.
  - exists (FileRecord.set_size (FileRecord.set_creation r c) s).
    split; [|done]. apply elem_of_updated_records. left.
    exists k, c, s. split; [done|]. unfold present_record. simpl. by rewrite Hk.
  - intros Hwf r' Hin Hp.
    pose proof (updated_records_by_path _ _ _ _ _ Hwf Hin) as Hr'.
    rewrite Hp, Hks, Hk in Hr'. done.
Qed.

Lemma C3_present_paths_frame_witness :
  ∃ r', r' ∈ updated_records
               (reconcile false new_year_2024
                  {["x" := ("2024-01-01 10:00:00", "5")]} {["x" := record_gone]})
        ∧ FileRecord.creation r' = "2024-01-01 10:00:00"
        ∧ FileRecord.size r' = "5"
        ∧ FileRecord.fullpath r' = "x"
        ∧ FileRecord.added r' = "2023-05-02"
        ∧ FileRecord.removed r' = "2023-09-09"
        ∧ FileRecord.wayback_url r' = "".
Proof.
  refine (proj1 (C3_present_paths_frame false new_year_2024
            {["x" := ("2024-01-01 10:00:00", "5")]} {["x" := record_gone]}
            "x" "2024-01-01 10:00:00" "5" record_gone _ _)); reflexivity.
Defined.

(** C4. A path of the previous table that the snapshot lacks, outside
    initial-crawl mode: an empty [removed] becomes the run date, a
    non-empty [removed] is kept as it is; in a table keyed by path this is
    the only output record of that path. After the run [removed] is not
    empty, so a later run in which the path is still absent, on whatever
    date, hands the record on unchanged. *)
Theorem C4_removed_set_once (initial_crawl : bool) (now : datetime)
    (file_data : gmap string (string * string))
    (existing : gmap string FileRecord.t) (k : string) (r : FileRecord.t) :
  existing !! k = Some r → file_data !! k = None →
  is_initial_crawl initial_crawl existing = false →
  let out := updated_records (reconcile initial_crawl now file_data existing) in
  let r1 := absent_record (strftime_Ymd now) r in
  (FileRecord.removed r = "" →
     r1 = FileRecord.set_removed r (strftime_Ymd now))
  ∧ (FileRecord.removed r ≠ "" → r1 = r)
  ∧ r1 ∈ out
  ∧ (keyed_by_path existing →
     ∀ r', r' ∈ out → FileRecord.fullpath r' = k → r' = r1)
  ∧ FileRecord.removed r1 ≠ ""
  ∧ (∀ initial_crawl2 now2 file_data2 (existing2 : gmap string FileRecord.t),
       existing2 !! k = Some r1 → file_data2 !! k = None →
       is_initial_crawl initial_crawl2 existing2 = false →
       r1 ∈ updated_records (reconcile initial_crawl2 now2 file_data2 existing2)).
Proof.
  intros Hk Hout Hmode out r1. subst out r1.
  assert (Hne : FileRecord.removed (absent_record (strftime_Ymd now) r) ≠ "").
  { unfold absent_record. destruct (decide _); [|done].
    apply strftime_Ymd_nonempty. }
  split; [|split; [|split; [|split; [|split]]]].
  - intros He. unfold absent_record. by rewrite decide_True.
  - intros He. unfold absent_record. by rewrite decide_False.
  - apply elem_of_updated_records. right. split; [done|]. by exists k, r.
  - intros Hwf r' Hin Hp.
    pose proof (updated_records_by_path _ _ _ _ _ Hwf Hin) as Hr'.
    rewrite Hp, Hout, Hk in Hr'. by destruct Hr'.
  - done.
  - intros flag2 now2 file_data2 existing2 Hk2 Hout2 Hmode2.
    apply elem_of_updated_records. right. split; [done|].
    exists k, (absent_record (strftime_Ymd now) r).
    split; [done|]. split; [done|].
    generalize dependent (absent_record (strftime_Ymd now) r).
    intros r1 Hne _. unfold absent_record. by rewrite decide_False.
Qed.

Lemma C4_removed_set_once_witness :
  FileRecord.mk "2023-05-01 08:00:00" "100" "x" "2023-05-02" "2024-01-01" ""
  ∈ updated_records
      (reconcile false new_year_2024 {["y" := ("2024-01-01 10:00:00", "5")]}
                 {["x" := record_x]}).
Proof.
  refine (proj1 (proj2 (proj2 (C4_removed_set_once false new_year_2024
            {["y" := ("2024-01-01 10:00:00", "5")]} {["x" := record_x]}
            "x" record_x _ _ _)))); reflexivity.
Defined.

(** C5. In initial-crawl mode (the flag set, or the previous table
    empty) no [removed] field is set: the run counts no removal, and every
    output record is either a record of the previous table with its
    [removed] field as it was, or a new record whose [removed] is empty. *)
Theorem C5_initial_crawl_never_removes (initial_crawl : bool) (now : datetime)
    (file_data : gmap string (string * string))
    (existing : gmap string FileRecord.t) :
  is_initial_crawl initial_crawl existing = true →
  let out := reconcile initial_crawl now file_data existing in
  removed_urls out = 0
  ∧ ∀ r', r' ∈ updated_records out →
      (∃ k r, existing !! k = Some r
              ∧ FileRecord.fullpath r' = FileRecord.fullpath r
              ∧ FileRecord.removed r' = FileRecord.removed r)
      ∨ (existing !! FileRecord.fullpath r' = None
         ∧ FileRecord.removed r' = "").
Proof.
  intros Hmode out. subst out. split.
  - unfold reconcile. cbn [removed_urls]. by rewrite Hmode.
  - intros r' Hin. apply elem_of_updated_records in Hin
      as [(k & c & s & Hk & ->)|(Hmode' & _)]; [|congruence].
    unfold present_record. cbn [fst snd].
    destruct (existing !! k) as [r|] eqn:Hr.
    + left. by exists k, r.
    + right. by split.
Qed.

Lemma C5_initial_crawl_never_removes_witness :
  removed_urls
    (reconcile true new_year_2024 {["y" := ("2024-01-01 10:00:00", "5")]}
               {["x" := record_x]}) = 0.
Proof.
  refine (proj1 (C5_initial_crawl_never_removes true new_year_2024
            {["y" := ("2024-01-01 10:00:00", "5")]} {["x" := record_x]} _)).
  reflexivity.
Defined.

(** ** Archive submitter *)

Lemma no_failure_counted_app (tr evs : list Archive.event) :
  no_failure_counted tr → no_failure_counted evs →
  no_failure_counted (tr ++ evs).
Proof.
  intros H1 H2 a s f [Hin|Hin]%elem_of_app; [by eapply H1|by eapply H2].
Qed.

Lemma no_failure_counted_sleep n (st : Archive.state) :
  no_failure_counted (Archive.trace st) →
  no_failure_counted (Archive.trace (Archive.sleep n st)).
Proof.
  intros H. apply no_failure_counted_app; [done|].
  intros a s f Hin. apply list_elem_of_singleton in Hin. done.
Qed.

Lemma no_failure_counted_send w url (st : Archive.state) :
  no_failure_counted (Archive.trace st) →
  no_failure_counted (Archive.trace (Archive.send w url st).2).
Proof.
  intros H. apply no_failure_counted_app; [done|].
  intros a s f Hin. apply list_elem_of_singleton in Hin. done.
Qed.

Lemma no_failure_counted_on_success i r cl fu (st : Archive.state) :
  no_failure_counted (Archive.trace st) →
  no_failure_counted (Archive.trace (Archive.on_success i r cl fu st)).
Proof.
  intros H. unfold Archive.on_success.
  destruct (Archive.writable _); [|done].
  apply no_failure_counted_app; [done|].
  intros a s f Hin. rewrite !elem_of_cons in Hin.
  destruct Hin as [Hin|[Hin|Hin]]; [done|by inversion Hin|].
  by apply elem_of_nil in Hin.
Qed.

Lemma loop_no_failure_counted w timeout start indices (st : Archive.state) :
  no_failure_counted (Archive.trace st) →
  no_failure_counted
    (Archive.trace
       match Archive.loop w timeout start indices st with
       | Archive.Finished st' | Archive.KeyError _ st' => st'
       end).
Proof.
  revert st. induction indices as [|i rest IH]; intros st Hst; [done|].
  cbn [Archive.loop]. destruct (bool_decide _); [done|].
  destruct (Archive.records st !! i) as [r|]; [|done].
  destruct (Archive.truthy (r !! "wayback_url")); [by apply IH|].
  destruct (Archive.truthy (r !! "removed")); [by apply IH|].
  destruct (r !! "fullpath") as [fullpath|]; [|done].
  pose proof (no_failure_counted_send w (Archive.save_url fullpath) st Hst) as Hs.
  destruct (Archive.send w (Archive.save_url fullpath) st) as [resp st1].
  simpl in Hs. destruct resp as [cl fu|code|].
  - apply IH. by apply no_failure_counted_sleep, no_failure_counted_on_success.
  - destruct (decide (code = 429)); apply IH; by apply no_failure_counted_sleep.
  - apply IH. by apply no_failure_counted_sleep.
Qed.

(** C6 (as amended). When the endpoint answers 429 for a pending record,
    the submitter sleeps 60 seconds, without the pacing delay, and goes on
    with the next record of the enumeration: the throttled record is left
    pending, its row and the two counters are unchanged and nothing is
    written. The counter files of the whole run report zero failures. *)
Theorem C6_rate_limited_moves_on (w : Archive.world) (timeout start_time : Z)
    (i : nat) (rest : list nat) (st : Archive.state) (r : Archive.row)
    (fullpath : string) :
  (Archive.clock st - start_time ≤ timeout)%Z →
  Archive.records st !! i = Some r →
  Archive.truthy (r !! "wayback_url") = false →
  Archive.truthy (r !! "removed") = false →
  r !! "fullpath" = Some fullpath →
  Archive.answer w (Archive.requests st) (Archive.save_url fullpath)
  = Archive.HTTPError 429 →
  Archive.loop w timeout start_time (i :: rest) st
  = Archive.loop w timeout start_time rest
      {| Archive.records := Archive.records st;
         Archive.archived := Archive.archived st;
         Archive.skipped := Archive.skipped st;
         Archive.clock :=
           (Archive.clock st + Archive.elapsed w (Archive.requests st) + 60)%Z;
         Archive.requests := S (Archive.requests st);
         Archive.trace :=
           Archive.trace st
           ++ [Archive.Request (Archive.save_url fullpath); Archive.Sleep 60] |}
  ∧ ∀ table, no_failure_counted
      (Archive.trace (Archive.final_state
                        (Archive.main w timeout start_time table))).
Proof.
  intros Hclock Hi Hw Hr Hf Hans. split.
  - cbn [Archive.loop]. rewrite bool_decide_eq_false_2 by lia.
    rewrite Hi, Hw, Hr, Hf. unfold Archive.send. rewrite Hans.
    rewrite decide_True by done. unfold Archive.sleep. cbn.
    by rewrite <- app_assoc.
  - intros table. unfold Archive.main.
    assert (H0 : no_failure_counted [Archive.SaveStats 0 0 0]).
    { intros a s f Hin. apply list_elem_of_singleton in Hin. by inversion Hin. }
    destruct table as [rows|]; [|done]. simpl.
    match goal with |- context [Archive.loop ?w ?t ?s ?l ?st] =>
      pose proof (loop_no_failure_counted w t s l st H0) as Hl;
      destruct (Archive.loop w t s l st) as [st'|key st']
    end; [|done].
    destruct (Archive.writable _); [|done].
    apply no_failure_counted_app; [done|].
    intros a s f Hin. rewrite !elem_of_cons in Hin.
    destruct Hin as [Hin|[Hin|Hin]]; [done|by inversion Hin|].
    by apply elem_of_nil in Hin.
Qed.

Lemma C6_rate_limited_moves_on_witness :
  Archive.loop Archive.throttle_first 300 0 [0; 1]
    {| Archive.records := [Archive.row_of "a.bin" ""; Archive.row_of "b.bin" ""];
       Archive.archived := 0; Archive.skipped := 0; Archive.clock := 0;
       Archive.requests := 0; Archive.trace := [] |}
  = Archive.loop Archive.throttle_first 300 0 [1]
      {| Archive.records := [Archive.row_of "a.bin" ""; Archive.row_of "b.bin" ""];
         Archive.archived := 0; Archive.skipped := 0; Archive.clock := 61;
         Archive.requests := 1;
         Archive.trace :=
           [Archive.Request (Archive.save_url "a.bin"); Archive.Sleep 60] |}.
Proof.
  refine (proj1 (C6_rate_limited_moves_on Archive.throttle_first 300 0 0 [1]
            {| Archive.records :=
                 [Archive.row_of "a.bin" ""; Archive.row_of "b.bin" ""];
               Archive.archived := 0; Archive.skipped := 0; Archive.clock := 0;
               Archive.requests := 0; Archive.trace := [] |}
            (Archive.row_of "a.bin" "") "a.bin" _ _ _ _ _ _));
    [by vm_compute|reflexivity..].
Defined.

(** C6, as the specification words it, fails: with two pending records and
    an endpoint that throttles the first request, the second request is for
    the second record; the first record is requested once and is still
    pending when the run ends. *)
Lemma C6_counterexample :
  let run := Archive.main Archive.throttle_first 300 0
               (Some [Archive.row_of "a.bin" ""; Archive.row_of "b.bin" ""]) in
  Archive.requests_of (Archive.trace (Archive.final_state run))
  = [Archive.save_url "a.bin"; Archive.save_url "b.bin"]
  ∧ Archive.records (Archive.final_state run) !! 0
    = Some (Archive.row_of "a.bin" "")
  ∧ Archive.archived (Archive.final_state run) = 1.
Proof. by vm_compute. Qed.

(** ** Table store: text files *)

Lemma universal_newlines_no_cr (s : string) :
  no_cr s = true → universal_newlines s = s.
Proof.
  induction s as [|c s IH]; [done|]. simpl.
  intros [Hc Hs]%andb_true_iff. apply negb_true_iff, bool_decide_eq_false in Hc.
  rewrite decide_False by done. by rewrite IH.
Qed.

Lemma universal_newlines_crlf (s t : string) :
  no_cr s = true →
  universal_newlines (s +:+ String CR (String LF t))
  = s +:+ String LF (universal_newlines t).
Proof.
  induction s as [|c s IH]; [done|]. simpl.
  intros [Hc Hs]%andb_true_iff. apply negb_true_iff, bool_decide_eq_false in Hc.
  rewrite decide_False by done. by rewrite IH.
Qed.

Lemma read_rows_cons_char (r : Csv.reader) (c : ascii) (line : string)
    (rest : list string) :
  Csv.read_rows r (String c line :: rest)
  = match Csv.process_char r (Csv.Char c) with
    | None => ([], true)
    | Some r1 => Csv.read_rows r1 (line :: rest)
    end.
Proof. simpl. by destruct (Csv.process_char r (Csv.Char c)). Qed.

Lemma end_of_line_ext (r : Csv.reader) next1 next2 :
  (∀ r', next1 r' = next2 r') →
  Csv.end_of_line r next1 = Csv.end_of_line r next2.
Proof.
  intros H. unfold Csv.end_of_line. destruct (Csv.process_char r Csv.EOL); [|done].
  destruct (decide _); by rewrite H.
Qed.

(** Reading line by line is reading the stream of characters. *)
Lemma read_rows_stream (s : string) (r : Csv.reader) (pending : bool) :
  Csv.read_rows r (lines_from pending s) = Csv.read_stream r pending s.
Proof.
  revert r pending. induction s as [|c s IH]; intros r pending.
  - by destruct pending.
  - assert (Hl : lines_from pending (String c s) = file_lines (String c s)).
    { unfold lines_from. destruct pending; [|done]. simpl.
      destruct (decide (c = LF)); [done|]. by destruct (file_lines s). }
    rewrite Hl. cbn [file_lines Csv.read_stream].
    destruct (decide (c = LF)) as [Hc|Hc].
    + unfold str_single. rewrite read_rows_cons_char. subst c.
      destruct (Csv.process_char r (Csv.Char LF)) as [r1|]; [|done].
      cbn [Csv.read_rows Csv.process_line]. apply end_of_line_ext.
      intros r'. apply (IH r' false).
    + destruct (file_lines s) as [|line lines] eqn:E.
      * unfold str_single. rewrite read_rows_cons_char.
        destruct (Csv.process_char r (Csv.Char c)) as [r1|]; [|done].
        rewrite <- (IH r1 true). unfold lines_from. by rewrite E.
      * rewrite read_rows_cons_char.
        destruct (Csv.process_char r (Csv.Char c)) as [r1|]; [|done].
        rewrite <- (IH r1 true). unfold lines_from. by rewrite E.
Qed.

(** ** Table store: the reader on what the writer wrote *)

Section ReaderRuns.
Implicit Types fs : list string.
Implicit Types fl f rest : string.

Lemma not_needs_quote (c : ascii) :
  Csv.needs_quote c = false → c ≠ COMMA ∧ c ≠ QUOTE ∧ c ≠ CR ∧ c ≠ LF.
Proof.
  unfold Csv.needs_quote. rewrite !orb_false_iff.
  rewrite !bool_decide_eq_false. tauto.
Qed.

Lemma add_char_ok (st : Csv.parser_state) fs fl (c : ascii) :
  (Z.of_nat (String.length fl) < Csv.field_limit)%Z →
  Csv.add_char {| Csv.state := st; Csv.fields := fs; Csv.field := fl |} c
  = Some {| Csv.state := st; Csv.fields := fs;
            Csv.field := fl +:+ str_single c |}.
Proof. intros H. unfold Csv.add_char. simpl. by rewrite bool_decide_eq_true_2. Qed.

Lemma append_single (fl : string) (c : ascii) (f : string) :
  (fl +:+ str_single c) +:+ f = fl +:+ String c f.
Proof. by rewrite append_assoc. Qed.

Ltac reader_simpl :=
  rewrite ?append_nil_l;
  cbn [Csv.read_stream Csv.process_char Csv.state Csv.is_newline orb
       pending_after];
  unfold Csv.set_state, Csv.save_field;
  cbn [Csv.state Csv.fields Csv.field fmap option_fmap option_map].

(** An unquoted field, character by character. *)
Lemma in_field_run fs fl (p : bool) f rest :
  Csv.any_char Csv.needs_quote f = false →
  (Z.of_nat (String.length fl + String.length f) ≤ Csv.field_limit)%Z →
  Csv.read_stream
    {| Csv.state := Csv.IN_FIELD; Csv.fields := fs; Csv.field := fl |}
    p (f +:+ rest)
  = Csv.read_stream
      {| Csv.state := Csv.IN_FIELD; Csv.fields := fs; Csv.field := fl +:+ f |}
      (pending_after p f) rest.
Proof.
  revert fl p. induction f as [|c f IH]; intros fl p Hplain Hlen.
  - by rewrite append_nil_r.
  - simpl in Hplain. apply orb_false_iff in Hplain as [Hc Hplain].
    destruct (not_needs_quote c Hc) as (Hcomma & Hquote & Hcr & Hlf).
    rewrite append_cons. reader_simpl.
    rewrite !bool_decide_eq_false_2 by done. reader_simpl.
    rewrite (decide_False (P := c = COMMA)) by done.
    rewrite add_char_ok by (simpl in Hlen; lia).
    rewrite (decide_False (P := c = LF)) by done.
    rewrite IH; [|done|rewrite append_length; simpl in *; lia].
    by rewrite append_single.
Qed.

(** The inside of a quoted field, character by character. *)
Lemma in_quoted_run fs fl (p : bool) f rest :
  (Z.of_nat (String.length fl + String.length f) ≤ Csv.field_limit)%Z →
  Csv.read_stream
    {| Csv.state := Csv.IN_QUOTED_FIELD; Csv.fields := fs; Csv.field := fl |}
    p (Csv.double_quotes f +:+ rest)
  = Csv.read_stream
      {| Csv.state := Csv.IN_QUOTED_FIELD; Csv.fields := fs;
         Csv.field := fl +:+ f |}
      (pending_after p (Csv.double_quotes f)) rest.
Proof.
  revert fl p. induction f as [|c f IH]; intros fl p Hlen.
  - by rewrite append_nil_r.
  - cbn [Csv.double_quotes]. destruct (decide (c = QUOTE)) as [->|Hq].
    + rewrite !append_cons. reader_simpl.
      rewrite (decide_True (P := QUOTE = QUOTE)) by done.
      rewrite (decide_False (P := QUOTE = LF)) by done. reader_simpl.
      rewrite (decide_True (P := QUOTE = QUOTE)) by done. reader_simpl.
      rewrite add_char_ok by (simpl in Hlen; lia). reader_simpl.
      rewrite (decide_False (P := QUOTE = LF)) by done.
      rewrite IH by (rewrite append_length; simpl in *; lia).
      rewrite append_single. by rewrite !bool_decide_eq_false_2.
    + rewrite append_cons. reader_simpl.
      rewrite (decide_False (P := c = QUOTE)) by done.
      rewrite add_char_ok by (simpl in Hlen; lia).
      destruct (decide (c = LF)) as [->|Hlf].
      * unfold Csv.end_of_line. reader_simpl.
        rewrite decide_False by done.
        rewrite IH by (rewrite append_length; simpl in *; lia).
        by rewrite append_single.
      * rewrite IH by (rewrite append_length; simpl in *; lia).
        rewrite append_single. by rewrite bool_decide_eq_false_2.
Qed.

Ltac decide_chars :=
  repeat first
    [ match goal with
      | |- context [bool_decide (?a = ?b)] =>
          first [ rewrite (bool_decide_eq_true_2 (a = b)) by done
                | rewrite (bool_decide_eq_false_2 (a = b)) by done ]
      end
    | match goal with
      | |- context [decide (?a = ?b)] =>
          first [ rewrite (decide_True (P := a = b)) by done
                | rewrite (decide_False (P := a = b)) by done ]
      end ].

Ltac reader_step :=
  repeat (progress (reader_simpl; decide_chars;
                    rewrite ?add_char_ok by (simpl in *; lia))).

(** A field followed by a comma: the field is saved and the next one is
    awaited. *)
Lemma read_field_comma (st0 : Csv.parser_state) fs (p : bool) f rest :
  st0 = Csv.START_RECORD ∨ st0 = Csv.START_FIELD →
  within_limit f = true →
  Csv.read_stream {| Csv.state := st0; Csv.fields := fs; Csv.field := "" |}
    p (Csv.write_field f +:+ String COMMA rest)
  = Csv.read_stream
      {| Csv.state := Csv.START_FIELD; Csv.fields := fs ++ [f];
         Csv.field := "" |} true rest.
Proof.
  intros Hst Hlim. apply bool_decide_eq_true in Hlim.
  unfold Csv.write_field.
  destruct (Csv.any_char Csv.needs_quote f) eqn:Hq.
  - rewrite !append_cons, append_assoc.
    assert (Hopen : Csv.read_stream
              {| Csv.state := st0; Csv.fields := fs; Csv.field := "" |} p
              (String QUOTE (Csv.double_quotes f
                             +:+ str_single QUOTE +:+ String COMMA rest))
            = Csv.read_stream
                {| Csv.state := Csv.IN_QUOTED_FIELD; Csv.fields := fs;
                   Csv.field := "" |} true
                (Csv.double_quotes f +:+ str_single QUOTE +:+ String COMMA rest)).
    { destruct Hst as [-> | ->]; by reader_step. }
    rewrite Hopen, in_quoted_run by (simpl; lia).
    unfold str_single. rewrite append_cons. by reader_step.
  - destruct f as [|c f].
    + rewrite append_nil_l. destruct Hst as [-> | ->]; by reader_step.
    + simpl in Hq. apply orb_false_iff in Hq as [Hc Hq].
      destruct (not_needs_quote c Hc) as (Hcomma & Hquote & Hcr & Hlf).
      rewrite append_cons.
      assert (Hfirst : Csv.read_stream
                {| Csv.state := st0; Csv.fields := fs; Csv.field := "" |} p
                (String c (f +:+ String COMMA rest))
              = Csv.read_stream
                  {| Csv.state := Csv.IN_FIELD; Csv.fields := fs;
                     Csv.field := str_single c |} true
                  (f +:+ String COMMA rest)).
      { destruct Hst as [-> | ->]; by reader_step. }
      rewrite Hfirst, in_field_run; [|done|simpl in *; lia].
      by reader_step.
Qed.

(** The last field of a row, followed by the end of the line: the row is
    complete. *)
Lemma read_field_line_end fs (p : bool) f rest :
  within_limit f = true →
  Csv.read_stream
    {| Csv.state := Csv.START_FIELD; Csv.fields := fs; Csv.field := "" |}
    p (Csv.write_field f +:+ String LF rest)
  = let '(rows, err) := Csv.read_stream Csv.reset false rest in
    ((fs ++ [f]) :: rows, err).
Proof.
  intros Hlim. apply bool_decide_eq_true in Hlim.
  unfold Csv.write_field.
  destruct (Csv.any_char Csv.needs_quote f) eqn:Hq.
  - rewrite !append_cons, append_assoc. reader_step.
    rewrite in_quoted_run by (simpl; lia).
    unfold str_single. rewrite append_cons. reader_step.
    unfold Csv.end_of_line. by reader_step.
  - destruct f as [|c f].
    + rewrite append_nil_l. reader_step.
      unfold Csv.end_of_line. by reader_step.
    + simpl in Hq. apply orb_false_iff in Hq as [Hc Hq].
      destruct (not_needs_quote c Hc) as (Hcomma & Hquote & Hcr & Hlf).
      rewrite append_cons. reader_step.
      rewrite in_field_run; [|done|simpl in *; lia].
      reader_step. unfold Csv.end_of_line. by reader_step.
Qed.

(** A row of at least two cells, read from the start of a record. *)
Lemma read_row (st0 : Csv.parser_state) fs (p : bool)
    (cells : list string) rest :
  st0 = Csv.START_FIELD ∨ (st0 = Csv.START_RECORD ∧ 2 ≤ length cells) →
  cells ≠ [] → forallb within_limit cells = true →
  Csv.read_stream {| Csv.state := st0; Csv.fields := fs; Csv.field := "" |}
    p (Csv.join_fields cells +:+ String LF rest)
  = let '(rows, err) := Csv.read_stream Csv.reset false rest in
    ((fs ++ cells) :: rows, err).
Proof.
  revert st0 fs p. induction cells as [|f cells IH]; intros st0 fs p Hst Hne Hlim;
    [done|].
  simpl in Hlim. apply andb_true_iff in Hlim as [Hf Hlim].
  destruct cells as [|g cells].
  - destruct Hst as [->|[_ Hlen]]; [|simpl in Hlen; lia].
    cbn [Csv.join_fields]. by apply read_field_line_end.
  - cbn [Csv.join_fields]. cbn [Csv.join_fields] in IH.
    rewrite append_assoc, append_cons.
    rewrite read_field_comma; [|destruct Hst as [->|[-> _]]; auto|done].
    rewrite (IH Csv.START_FIELD (fs ++ [f]) true (or_introl eq_refl)
               ltac:(done) Hlim).
    by rewrite <- app_assoc.
Qed.

(** The rows of a text, each of at least two cells, read back. *)
Lemma read_rows_text (rows : list (list string)) :
  Forall (λ cells, 2 ≤ length cells ∧ forallb within_limit cells = true) rows →
  Csv.read_stream Csv.reset false (rows_text rows) = (rows, false).
Proof.
  induction 1 as [|cells rows [Hlen Hlim] _ IH]; [done|].
  cbn [rows_text foldr]. unfold Csv.reset at 1.
  rewrite read_row; [|auto|intros ->; simpl in Hlen; lia|done].
  fold (rows_text rows). by rewrite IH.
Qed.

End ReaderRuns.

(** ** Table store: tables and sorting *)

Lemma table_of_snoc (l : list FileRecord.t) (r : FileRecord.t) :
  table_of (l ++ [r]) = <[FileRecord.fullpath r := r]> (table_of l).
Proof. unfold table_of. by rewrite foldl_snoc. Qed.

Lemma table_of_list_to_map (l : list FileRecord.t) :
  table_of l = list_to_map (reverse (path_entry <$> l)).
Proof.
  induction l as [|r l IH] using rev_ind; [done|].
  rewrite table_of_snoc, fmap_app, reverse_app, IH. done.
Qed.

Lemma path_entry_fst (l : list FileRecord.t) :
  (path_entry <$> l).*1 = FileRecord.fullpath <$> l.
Proof. rewrite <- list_fmap_compose. done. Qed.

Lemma table_of_lookup (l : list FileRecord.t) (k : string) (r : FileRecord.t) :
  NoDup (FileRecord.fullpath <$> l) →
  table_of l !! k = Some r ↔ r ∈ l ∧ FileRecord.fullpath r = k.
Proof.
  intros Hnd. rewrite table_of_list_to_map, <- elem_of_list_to_map.
  - rewrite elem_of_reverse, list_elem_of_fmap. unfold path_entry. split.
    + intros (r' & [= -> ->] & Hin). done.
    + intros [Hin <-]. by exists r.
  - by rewrite fmap_reverse, path_entry_fst, reverse_Permutation.
Qed.

Lemma table_of_perm (l1 l2 : list FileRecord.t) :
  NoDup (FileRecord.fullpath <$> l1) → l1 ≡ₚ l2 → table_of l1 = table_of l2.
Proof.
  intros Hnd Hperm. apply map_eq. intros k. apply option_eq. intros r.
  rewrite !table_of_lookup; [by rewrite Hperm|by rewrite <- Hperm|done].
Qed.

Lemma table_of_keyed (l : list FileRecord.t) : keyed_by_path (table_of l).
Proof.
  induction l as [|r l IH] using rev_ind; [by apply map_Forall_empty|].
  rewrite table_of_snoc. by apply map_Forall_insert_2.
Qed.

Lemma insert_by_path_perm (r : FileRecord.t) (l : list FileRecord.t) :
  insert_by_path r l ≡ₚ r :: l.
Proof.
  induction l as [|x l IH]; [done|]. simpl.
  destruct (decide _); [done|]. rewrite IH. apply Permutation_swap.
Qed.

Lemma sorted_by_path_perm (l : list FileRecord.t) : sorted_by_path l ≡ₚ l.
Proof.
  induction l as [|r l IH]; [done|]. simpl.
  by rewrite insert_by_path_perm, IH.
Qed.

(** ** Table store: what [save_csv] writes *)

Lemma dict_cells_to_dict (r : FileRecord.t) :
  dict_cells (FileRecord.to_dict r) = record_cells r.
Proof. destruct r. by vm_compute. Qed.

Lemma join_fields_cons2 (f g : string) (cells : list string) :
  Csv.join_fields (f :: g :: cells)
  = Csv.write_field f +:+ String COMMA (Csv.join_fields (g :: cells)).
Proof. done. Qed.

Lemma append_eq_nil (s t : string) : s +:+ t = "" → s = "" ∧ t = "".
Proof. destruct s; [by rewrite append_nil_l|by rewrite append_cons]. Qed.

Lemma writerow_two (cells : list string) :
  2 ≤ length cells →
  Csv.writerow cells = Csv.join_fields cells +:+ String CR (str_single LF).
Proof.
  intros Hlen. destruct cells as [|f [|g cells]]; [simpl in Hlen; lia..|].
  unfold Csv.writerow. rewrite join_fields_cons2.
  rewrite (bool_decide_eq_false_2 (_ +:+ _ = "")); [by rewrite andb_false_r|].
  by intros [_ ?]%append_eq_nil.
Qed.

Lemma no_cr_append (s t : string) : no_cr (s +:+ t) = no_cr s && no_cr t.
Proof. apply str_all_append. Qed.

Lemma no_cr_double_quotes (f : string) :
  no_cr f = true → no_cr (Csv.double_quotes f) = true.
Proof.
  unfold no_cr. induction f as [|c f IH]; [done|]. simpl.
  intros [Hc Hf]%andb_true_iff. destruct (decide (c = QUOTE)) as [->|_]; simpl.
  - by apply IH.
  - rewrite Hc. by apply IH.
Qed.

Lemma no_cr_write_field (f : string) :
  no_cr f = true → no_cr (Csv.write_field f) = true.
Proof.
  intros Hf. unfold Csv.write_field. destruct (Csv.any_char _ f); [|done].
  pose proof (no_cr_double_quotes f Hf) as Hd. unfold no_cr in *.
  simpl. by rewrite str_all_append, Hd.
Qed.

Lemma no_cr_join_fields (cells : list string) :
  forallb no_cr cells = true → no_cr (Csv.join_fields cells) = true.
Proof.
  induction cells as [|f [|g cells] IH]; [done|..].
  - simpl. intros [Hf _]%andb_true_iff. by apply no_cr_write_field.
  - intros [Hf Hcells]%andb_true_iff. rewrite join_fields_cons2, no_cr_append.
    rewrite no_cr_write_field by done.
    change (no_cr (String COMMA ?s)) with (no_cr s). by rewrite IH.
Qed.

(** Reading the written text with universal newlines turns each line
    terminator into a line feed and leaves the rows as they are, when no
    cell holds a carriage return. *)
Lemma universal_newlines_crlf_text (rows : list (list string)) :
  Forall (λ cells, 2 ≤ length cells ∧ forallb no_cr cells = true) rows →
  universal_newlines (crlf_text rows) = rows_text rows.
Proof.
  induction 1 as [|cells rows [Hlen Hcr] _ IH]; [done|].
  cbn [crlf_text rows_text foldr]. rewrite writerow_two by done.
  unfold str_single. rewrite append_assoc, !append_cons, append_nil_l.
  rewrite universal_newlines_crlf by by apply no_cr_join_fields.
  fold (crlf_text rows). by rewrite IH.
Qed.

Lemma save_csv_crlf_text (records : list FileRecord.t) :
  save_csv records
  = crlf_text (fieldnames :: (record_cells <$> sorted_by_path records)).
Proof.
  unfold save_csv. cbn [crlf_text foldr]. f_equal.
  induction (sorted_by_path records) as [|r l IH]; [done|].
  simpl. by rewrite IH, dict_cells_to_dict.
Qed.

Lemma record_ok_cells (r : FileRecord.t) :
  record_ok r = true →
  forallb no_cr (record_cells r) = true
  ∧ forallb within_limit (record_cells r) = true
  ∧ FileRecord.added r ≠ "".
Proof.
  unfold record_ok, csv_safe. intros [Ha Hc]%andb_true_iff.
  apply bool_decide_eq_true in Ha. split; [|split; [|done]].
  - clear Ha. induction (record_cells r) as [|f l IH]; [done|].
    simpl in *. apply andb_true_iff in Hc as [[-> _]%andb_true_iff Hl]. auto.
  - clear Ha. induction (record_cells r) as [|f l IH]; [done|].
    simpl in *. apply andb_true_iff in Hc as [[_ ->]%andb_true_iff Hl]. auto.
Qed.

Lemma filter_all {X} (P : X → Prop) `{!∀ x, Decision (P x)} (l : list X) :
  Forall P l → filter P l = l.
Proof.
  induction 1 as [|x l Hx _ IH]; [done|].
  by rewrite filter_cons_True, IH.
Qed.

(** The rows [csv.DictReader] sees in the text [save_csv] wrote. *)
Lemma csv_dicts_save_csv (records : list FileRecord.t) :
  forallb record_ok records = true →
  csv_dicts (save_csv records)
  = ((λ r, Csv.dict_of_row fieldnames (record_cells r))
       <$> sorted_by_path records, false).
Proof.
  intros Hok. unfold csv_dicts.
  assert (Hall : Forall (λ r, record_ok r = true) (sorted_by_path records)).
  { rewrite sorted_by_path_perm. apply Forall_forall. intros r Hin.
    rewrite forallb_forall in Hok. apply Hok. by apply list_elem_of_In. }
  rewrite save_csv_crlf_text, universal_newlines_crlf_text.
  2:{ constructor; [split; [simpl; lia|by vm_compute]|]. apply Forall_fmap.
      eapply Forall_impl; [exact Hall|]. intros r Hr. simpl.
      split; [lia|]. by apply record_ok_cells. }
  change (file_lines ?s) with (lines_from false s).
  rewrite read_rows_stream, read_rows_text.
  2:{ constructor; [split; [simpl; lia|by vm_compute]|]. apply Forall_fmap.
      eapply Forall_impl; [exact Hall|]. intros r Hr. simpl.
      split; [lia|]. by apply record_ok_cells. }
  cbn [Csv.dict_reader]. f_equal.
  rewrite filter_all; [by rewrite <- list_fmap_compose|].
  apply Forall_fmap, Forall_true. by intros r.
Qed.

(** ** Table store: loading what was saved *)

Lemma Ok_inj {X} (a b : X) : Ok a = Ok b → a = b.
Proof.
  intros H.
  exact (f_equal (λ x, match x with Ok v => v | Raises _ => a end) H).
Qed.

Lemma dict_of_row_cells (r : FileRecord.t) :
  let d := Csv.dict_of_row fieldnames (record_cells r) in
  d !! "creation" = Some (Some (FileRecord.creation r))
  ∧ d !! "size" = Some (Some (FileRecord.size r))
  ∧ d !! "fullpath" = Some (Some (FileRecord.fullpath r))
  ∧ d !! "added" = Some (Some (FileRecord.added r))
  ∧ d !! "removed" = Some (Some (FileRecord.removed r))
  ∧ d !! "wayback_url" = Some (Some (FileRecord.wayback_url r)).
Proof. destruct r. by vm_compute. Qed.

Lemma py_or_some (s d : string) : s ≠ "" → py_or (Some s) d = s.
Proof. intros Hs. unfold py_or. by rewrite decide_False. Qed.

Lemma py_or_some_empty (s : string) : py_or (Some s) "" = s.
Proof. unfold py_or. by destruct (decide (s = "")) as [->|]. Qed.

Lemma record_of_row_cells (now : datetime) (r : FileRecord.t) :
  FileRecord.added r ≠ "" →
  record_of_row now (Csv.dict_of_row fieldnames (record_cells r)) = Ok r.
Proof.
  intros Ha.
  destruct (dict_of_row_cells r) as (Hc & Hs & Hp & Had & Hr & Hw).
  unfold record_of_row, dict_item, dict_get. rewrite Hc, Hs, Hp, Had, Hr, Hw.
  simpl. unfold FileRecord.init.
  rewrite py_or_some by done. rewrite !py_or_some_empty. by destruct r.
Qed.

Lemma load_rows_cells (now : datetime) (l : list FileRecord.t)
    (records : gmap string FileRecord.t) :
  Forall (λ r, FileRecord.added r ≠ "") l →
  load_rows now ((λ r, Csv.dict_of_row fieldnames (record_cells r)) <$> l)
    records
  = Ok (foldl (λ t r, <[FileRecord.fullpath r := r]> t) records l).
Proof.
  intros Hl. revert records. induction Hl as [|r l Hr _ IH]; intros records.
  - done.
  - cbn [fmap list_fmap load_rows]. rewrite record_of_row_cells by done.
    apply IH.
Qed.

(** Loading what [save_csv] wrote gives the table of the records
    saved. *)
Lemma load_save_csv (now : datetime) (records : list FileRecord.t) :
  NoDup (FileRecord.fullpath <$> records) →
  forallb record_ok records = true →
  load_existing_csv now (Some (save_csv records)) = Ok (table_of records).
Proof.
  intros Hnd Hok. unfold load_existing_csv.
  rewrite csv_dicts_save_csv by done. rewrite load_rows_cells.
  - fold (table_of (sorted_by_path records)).
    f_equal. symmetry. apply table_of_perm; [done|].
    by rewrite sorted_by_path_perm.
  - rewrite sorted_by_path_perm. apply Forall_forall. intros r Hin.
    rewrite forallb_forall in Hok.
    by apply record_ok_cells, Hok, list_elem_of_In.
Qed.

(** C8 (as amended). For every list of records with distinct paths in
    which no [added] field is empty and every cell is free of carriage
    returns and within the field size limit of the reader, loading what
    [save_csv] wrote succeeds, and the loaded table holds exactly the
    records saved, each under its path and equal in all six fields. *)
Theorem C8_save_load_round_trip (now : datetime)
    (records : list FileRecord.t) :
  NoDup (FileRecord.fullpath <$> records) →
  forallb record_ok records = true →
  ∃ table,
    load_existing_csv now (Some (save_csv records)) = Ok table
    ∧ (∀ k r, table !! k = Some r ↔ r ∈ records ∧ FileRecord.fullpath r = k)
    ∧ size table = length records.
Proof.
  intros Hnd Hok. exists (table_of records).
  split; [by apply load_save_csv|]. split.
  - intros k r. by apply table_of_lookup.
  - rewrite table_of_list_to_map, map_size_list_to_map.
    + by rewrite length_reverse, length_fmap.
    + by rewrite fmap_reverse, path_entry_fst, reverse_Permutation.
Qed.

Lemma C8_save_load_round_trip_witness :
  ∃ table,
    load_existing_csv new_year_2024 (Some (save_csv [record_x])) = Ok table
    ∧ (∀ k r, table !! k = Some r
              ↔ r ∈ [record_x] ∧ FileRecord.fullpath r = k)
    ∧ size table = 1.
Proof.
  refine (C8_save_load_round_trip new_year_2024 [record_x] _ _).
  - simpl. apply NoDup_singleton.
  - reflexivity.
Defined.

(** C8, as the specification words it, fails: a record whose [added]
    field is empty is saved with an empty cell, and loading replaces the
    empty cell with the date of the load. *)
Lemma C8_counterexample :
  load_existing_csv new_year_2024 (Some (save_csv [record_undated]))
  = Ok {["x" := FileRecord.mk "2023-05-01 08:00:00" "100" "x" "2024-01-01" "" ""]}
  ∧ FileRecord.added record_undated = ""
  ∧ load_existing_csv new_year_2024 (Some (save_csv [record_undated]))
    ≠ Ok {["x" := record_undated]}.
Proof.
  assert (H : load_existing_csv new_year_2024 (Some (save_csv [record_undated]))
     = Ok {["x" := FileRecord.mk "2023-05-01 08:00:00" "100" "x"
                     "2024-01-01" "" ""]}) by by vm_compute.
  split; [done|]. split; [done|]. rewrite H. intros Heq.
  apply Ok_inj in Heq.
  apply (f_equal (λ m : gmap string FileRecord.t, m !! "x")) in Heq.
  cbv beta in Heq. rewrite !lookup_singleton_eq in Heq. by inversion Heq.
Qed.

(** ** Table store: loading any file *)

Lemma py_or_nonempty (x : option string) (d : string) : d ≠ "" → py_or x d ≠ "".
Proof. intros Hd. unfold py_or. destruct x as [s|]; [|done]. by destruct (decide _). Qed.

Lemma py_or_cell (d : gmap string (option string)) (key dflt : string) :
  py_or (dict_get d key) dflt
  = if cell_empty (d !! key) then dflt
    else default "" (default None (d !! key)).
Proof.
  unfold dict_get, cell_empty, py_or.
  destruct (d !! key) as [[s|]|]; simpl; [|done|done].
  destruct (decide (s = "")) as [->|Hs].
  - by rewrite bool_decide_eq_true_2.
  - by rewrite bool_decide_eq_false_2.
Qed.

(** The record built from one row. *)
Lemma record_of_row_fields (now : datetime) (d : gmap string (option string))
    (r : FileRecord.t) :
  record_of_row now d = Ok r →
  d !! "fullpath" = Some (Some (FileRecord.fullpath r))
  ∧ d !! "creation" = Some (Some (FileRecord.creation r))
  ∧ d !! "size" = Some (Some (FileRecord.size r))
  ∧ FileRecord.added r
    = (if cell_empty (d !! "added") then strftime_Ymd now
       else default "" (default None (d !! "added")))
  ∧ FileRecord.removed r
    = (if cell_empty (d !! "removed") then ""
       else default "" (default None (d !! "removed")))
  ∧ FileRecord.wayback_url r
    = (if cell_empty (d !! "wayback_url") then ""
       else default "" (default None (d !! "wayback_url"))).
Proof.
  unfold record_of_row, dict_item.
  destruct (d !! "fullpath") as [[fp|]|]; [|done..].
  destruct (d !! "creation") as [[cr|]|]; [|done..].
  destruct (d !! "size") as [[sz|]|]; [|done..].
  intros [= <-]. cbn [FileRecord.init FileRecord.added FileRecord.removed
    FileRecord.wayback_url FileRecord.fullpath FileRecord.creation
    FileRecord.size].
  by rewrite !py_or_cell.
Qed.

Lemma load_rows_lookup (now : datetime)
    (dicts : list (gmap string (option string)))
    (records table : gmap string FileRecord.t) (k : string) (r : FileRecord.t) :
  load_rows now dicts records = Ok table → table !! k = Some r →
  records !! k = Some r
  ∨ ∃ d, d ∈ dicts ∧ record_of_row now d = Ok r ∧ FileRecord.fullpath r = k.
Proof.
  revert records. induction dicts as [|d dicts IH]; intros records Hload Hk.
  - left. simpl in Hload. apply Ok_inj in Hload. by subst table.
  - simpl in Hload. destruct (record_of_row now d) as [r1|e] eqn:Hd; [|done].
    destruct (IH _ Hload Hk) as [Hins|(d' & Hin & Hd' & Hp)].
    + destruct (decide (FileRecord.fullpath r1 = k)) as [<-|Hne].
      * rewrite lookup_insert_eq in Hins. injection Hins as ->.
        right. exists d. split; [left|done].
      * rewrite lookup_insert_ne in Hins by done. by left.
    + right. exists d'. split; [by right|done].
Qed.

(** C10. Loading never yields a record with an empty [added] field: every
    record of the loaded table is built from a row of the file, under its
    path, and its [added] is the date of the load when the cell of the row
    is empty or missing, the cell otherwise; [removed] and [wayback_url]
    are empty when their cell is empty or missing. *)
Theorem C10_load_fills_added (now : datetime) (file : option string)
    (table : gmap string FileRecord.t) (k : string) (r : FileRecord.t) :
  load_existing_csv now file = Ok table → table !! k = Some r →
  FileRecord.added r ≠ ""
  ∧ ∃ text d, file = Some text ∧ d ∈ (csv_dicts text).1
      ∧ record_of_row now d = Ok r ∧ FileRecord.fullpath r = k
      ∧ (cell_empty (d !! "added") = true →
           FileRecord.added r = strftime_Ymd now)
      ∧ (cell_empty (d !! "added") = false →
           d !! "added" = Some (Some (FileRecord.added r)))
      ∧ (cell_empty (d !! "removed") = true → FileRecord.removed r = "")
      ∧ (cell_empty (d !! "wayback_url") = true →
           FileRecord.wayback_url r = "").
Proof.
  intros Hload Hk. destruct file as [text|].
  2:{ simpl in Hload. apply Ok_inj in Hload. subst table.
      by rewrite lookup_empty in Hk. }
  unfold load_existing_csv in Hload.
  destruct (csv_dicts text) as [dicts err] eqn:Hd.
  destruct (load_rows now dicts ∅) as [records|e] eqn:Hrows; [|done].
  destruct err; [done|]. apply Ok_inj in Hload. subst records.
  destruct (load_rows_lookup _ _ _ _ _ _ Hrows Hk) as [He|(d & Hin & Hrow & Hp)].
  { by rewrite lookup_empty in He. }
  destruct (record_of_row_fields _ _ _ Hrow) as (_ & _ & _ & Ha & Hr & Hw).
  split.
  - rewrite Ha. destruct (d !! "added") as [[s|]|] eqn:Hs; simpl;
      try apply strftime_Ymd_nonempty.
    destruct (bool_decide (s = "")) eqn:Hb; [apply strftime_Ymd_nonempty|].
    by apply bool_decide_eq_false in Hb.
  - exists text, d. split; [done|]. split; [by rewrite Hd|].
    split; [done|]. split; [done|]. repeat split.
    + intros He. by rewrite He in Ha.
    + intros He. rewrite He in Ha.
      destruct (d !! "added") as [[s|]|]; simpl in *; [by subst|done..].
    + intros He. by rewrite He in Hr.
    + intros He. by rewrite He in Hw.
Qed.

Lemma C10_load_fills_added_witness :
  FileRecord.added
    (FileRecord.mk "2023-05-01 08:00:00" "100" "x" "2024-01-01" "" "") ≠ "".
Proof.
  refine (proj1 (C10_load_fills_added new_year_2024 (Some text_undated)
            {["x" := FileRecord.mk "2023-05-01 08:00:00" "100" "x"
                       "2024-01-01" "" ""]} "x" _ _ _)).
  - by vm_compute.
  - reflexivity.
Defined.

Example load_undated :
  load_existing_csv new_year_2024 (Some text_undated)
  = Ok {["x" := FileRecord.mk "2023-05-01 08:00:00" "100" "x" "2024-01-01" "" ""]}.
Proof. by vm_compute. Qed.

Example load_three_columns :
  load_existing_csv new_year_2024 (Some text_three_columns)
  = Ok {["x" := FileRecord.mk "2023-05-01 08:00:00" "100" "x" "2024-01-01" "" ""]}.
Proof. by vm_compute. Qed.

(** ** Idempotence of the reconciliation *)

Lemma NoDup_fmap_filter {X Y} (f : X → Y) (P : X → Prop)
    `{!∀ x, Decision (P x)} (l : list X) :
  NoDup (f <$> l) → NoDup (f <$> filter P l).
Proof.
  induction l as [|x l IH]; [done|]. rewrite fmap_cons, NoDup_cons.
  intros [Hx Hl]. rewrite filter_cons. destruct (decide (P x)); [|auto].
  rewrite fmap_cons, NoDup_cons. split; [|auto].
  intros (y & Hy & Hin%list_elem_of_filter)%list_elem_of_fmap.
  apply Hx. apply list_elem_of_fmap. exists y. tauto.
Qed.

Lemma present_record_fullpath (now : datetime) (ad : string)
    (existing : gmap string FileRecord.t) (k c s : string) :
  keyed_by_path existing →
  FileRecord.fullpath (present_record now ad existing (k, (c, s))) = k.
Proof.
  intros Hwf. unfold present_record. cbn [fst snd].
  destruct (existing !! k) as [r|] eqn:Hr; [|done]. exact (Hwf k r Hr).
Qed.

Lemma present_record_creation_size (now : datetime) (ad : string)
    (existing : gmap string FileRecord.t) (k c s : string) :
  FileRecord.creation (present_record now ad existing (k, (c, s))) = c
  ∧ FileRecord.size (present_record now ad existing (k, (c, s))) = s.
Proof. unfold present_record. cbn [fst snd]. by destruct (existing !! k). Qed.

Lemma absent_record_fullpath (today : string) (r : FileRecord.t) :
  FileRecord.fullpath (absent_record today r) = FileRecord.fullpath r.
Proof. unfold absent_record. by destruct (decide _). Qed.

Lemma absent_record_removed (today : string) (r : FileRecord.t) :
  today ≠ "" → FileRecord.removed (absent_record today r) ≠ "".
Proof. intros Ht. unfold absent_record. by destruct (decide _). Qed.

Lemma absent_record_idemp (today : string) (r : FileRecord.t) :
  today ≠ "" →
  absent_record today (absent_record today r) = absent_record today r.
Proof.
  intros Ht. unfold absent_record at 1.
  rewrite decide_False; [done|]. by apply absent_record_removed.
Qed.

Lemma set_same_creation_size (r : FileRecord.t) (c s : string) :
  FileRecord.creation r = c → FileRecord.size r = s →
  FileRecord.set_size (FileRecord.set_creation r c) s = r.
Proof. destruct r. simpl. by intros -> ->. Qed.

(** In a table keyed by path the output has one record per path. *)
Lemma updated_records_NoDup (initial_crawl : bool) (now : datetime)
    (file_data : gmap string (string * string))
    (existing : gmap string FileRecord.t) :
  keyed_by_path existing →
  NoDup (FileRecord.fullpath
           <$> updated_records (reconcile initial_crawl now file_data existing)).
Proof.
  intros Hwf. rewrite updated_records_eq, fmap_app.
  assert (Hpresent : ∀ ad,
    FileRecord.fullpath <$> (present_record now ad existing <$> map_to_list file_data)
    = (map_to_list file_data).*1).
  { intros ad. rewrite <- list_fmap_compose. apply list_fmap_ext.
    intros i [k [c s]] _. simpl. by apply present_record_fullpath. }
  assert (Habsent :
    FileRecord.fullpath
      <$> ((λ e : string * FileRecord.t, absent_record (strftime_Ymd now) e.2)
             <$> filter (λ e, e.1 ∉ dom file_data) (map_to_list existing))
    = (filter (λ e : string * FileRecord.t, e.1 ∉ dom file_data)
         (map_to_list existing)).*1).
  { rewrite <- list_fmap_compose. apply list_fmap_ext.
    intros i [k r] Hi. simpl. rewrite absent_record_fullpath.
    apply list_elem_of_lookup_2, list_elem_of_filter in Hi as [_ Hi].
    apply elem_of_map_to_list in Hi. exact (Hwf k r Hi). }
  rewrite Hpresent. apply NoDup_app. split; [apply NoDup_fst_map_to_list|].
  split.
  - intros k Hk Hk'. destruct (is_initial_crawl initial_crawl existing).
    { by apply elem_of_nil in Hk'. }
    rewrite Habsent in Hk'.
    apply list_elem_of_fmap in Hk as ([k1 cs] & -> & Hin).
    apply list_elem_of_fmap in Hk' as ([k2 r] & Heq & Hin').
    simpl in Heq. subst k2.
    apply list_elem_of_filter in Hin' as [Hout _]. simpl in Hout.
    apply Hout, elem_of_dom. exists cs. by apply elem_of_map_to_list.
  - destruct (is_initial_crawl initial_crawl existing); [apply NoDup_nil_2|].
    rewrite Habsent. apply NoDup_fmap_filter, NoDup_fst_map_to_list.
Qed.

(** The table the output stands for, path by path. *)
Lemma table_of_updated_records (initial_crawl : bool) (now : datetime)
    (file_data : gmap string (string * string))
    (existing : gmap string FileRecord.t) (k : string) :
  keyed_by_path existing →
  table_of (updated_records (reconcile initial_crawl now file_data existing)) !! k
  = match file_data !! k with
    | Some (c, s) =>
        Some (present_record now
                (added_date (is_initial_crawl initial_crawl existing)
                            (strftime_Ymd now)) existing (k, (c, s)))
    | None =>
        if is_initial_crawl initial_crawl existing then None
        else absent_record (strftime_Ymd now) <$> existing !! k
    end.
Proof.
  intros Hwf. apply option_eq. intros r'.
  rewrite table_of_lookup by by apply updated_records_NoDup.
  rewrite elem_of_updated_records. split.
  - intros [[(k' & c & s & Hk' & ->)|(Hmode & k' & r & Hr & Hout & ->)] Hp].
    + rewrite present_record_fullpath in Hp by done. subst k'. by rewrite Hk'.
    + rewrite absent_record_fullpath in Hp.
      pose proof (Hwf k' r Hr) as Hp'. simpl in Hp'. rewrite Hp' in Hp. subst k'.
      by rewrite Hout, Hmode, Hr.
  - destruct (file_data !! k) as [[c s]|] eqn:Hk.
    + intros [= <-]. split; [|by apply present_record_fullpath].
      left. by exists k, c, s.
    + destruct (is_initial_crawl initial_crawl existing) eqn:Hmode; [done|].
      destruct (existing !! k) as [r|] eqn:Hr; [|done].
      intros [= <-]. split.
      * right. split; [done|]. by exists k, r.
      * rewrite absent_record_fullpath. exact (Hwf k r Hr).
Qed.

Lemma insert_by_path_comm (x y : FileRecord.t) (l : list FileRecord.t) :
  FileRecord.fullpath x ≠ FileRecord.fullpath y →
  insert_by_path x (insert_by_path y l) = insert_by_path y (insert_by_path x l).
Proof.
  intros Hne.
  assert (Hxy : ¬ (String.le (FileRecord.fullpath x) (FileRecord.fullpath y)
                   ∧ String.le (FileRecord.fullpath y) (FileRecord.fullpath x))).
  { intros [H1 H2]. apply Hne. by apply (anti_symm String.le). }
  induction l as [|z l IH]; simpl.
  - destruct (decide (String.le (FileRecord.fullpath x) (FileRecord.fullpath y)))
      as [H1|H1];
    destruct (decide (String.le (FileRecord.fullpath y) (FileRecord.fullpath x)))
      as [H2|H2]; try done; [tauto|].
    destruct (total String.le (FileRecord.fullpath x) (FileRecord.fullpath y));
      tauto.
  - destruct (decide (String.le (FileRecord.fullpath y) (FileRecord.fullpath z)))
      as [Hyz|Hyz];
    destruct (decide (String.le (FileRecord.fullpath x) (FileRecord.fullpath z)))
      as [Hxz|Hxz]; simpl.
    + destruct (decide (String.le (FileRecord.fullpath x) (FileRecord.fullpath y)))
        as [H1|H1];
      destruct (decide (String.le (FileRecord.fullpath y) (FileRecord.fullpath x)))
        as [H2|H2]; try tauto.
      * by rewrite decide_True by done.
      * by rewrite decide_True by done.
      * destruct (total String.le (FileRecord.fullpath x) (FileRecord.fullpath y));
          tauto.
    + rewrite (decide_False (P := String.le (FileRecord.fullpath x)
                                            (FileRecord.fullpath y))).
      2:{ intros H1. apply Hxz. by etrans. }
      rewrite decide_False by done. by rewrite decide_True by done.
    + rewrite decide_True by done.
      rewrite (decide_False (P := String.le (FileRecord.fullpath y)
                                            (FileRecord.fullpath x))).
      2:{ intros H2. apply Hyz. by etrans. }
      by rewrite decide_False by done.
    + rewrite !decide_False by done. by rewrite IH.
Qed.

(** Sorting by a key without duplicates forgets the order of the list. *)
Lemma sorted_by_path_perm_eq (l1 l2 : list FileRecord.t) :
  l1 ≡ₚ l2 → NoDup (FileRecord.fullpath <$> l1) →
  sorted_by_path l1 = sorted_by_path l2.
Proof.
  induction 1 as [|x l1 l2 Hperm IH|x y l|l1 l2 l3 H12 IH12 H23 IH23];
    intros Hnd.
  - done.
  - simpl. rewrite IH; [done|]. rewrite fmap_cons in Hnd.
    by apply NoDup_cons in Hnd as [_ ?].
  - simpl. apply insert_by_path_comm. rewrite !fmap_cons in Hnd.
    apply NoDup_cons in Hnd as [Hy _]. intros Heq. apply Hy. rewrite Heq. left.
  - rewrite IH12 by done. apply IH23. by rewrite <- H12.
Qed.

Lemma filter_none {X} (P : X → Prop) `{!∀ x, Decision (P x)} (l : list X) :
  (∀ x, x ∈ l → ¬ P x) → filter P l = [].
Proof.
  induction l as [|x l IH]; [done|]. intros Hall.
  rewrite filter_cons_False by (apply Hall; left).
  apply IH. intros y Hy. apply Hall. by right.
Qed.

(** C2. Reconciliation is idempotent. The table is the previous table
    keyed by path; a run without the initial-crawl flag is followed by a
    second one with the same snapshot on the same date, on the table the
    first one wrote. The second run hands [save_csv] the same records, so
    the text written and the table it stands for are the same, and it
    counts no new and no removed record. The table the second run starts
    from is the one [load_existing_csv] reads in the text of the first run,
    when the records of that run survive the text file. *)
Theorem C2_reconcile_idempotent (now : datetime)
    (file_data : gmap string (string * string))
    (existing : gmap string FileRecord.t) :
  keyed_by_path existing →
  let out1 := reconcile false now file_data existing in
  let table1 := table_of (updated_records out1) in
  let out2 := reconcile false now file_data table1 in
  sorted_by_path (updated_records out2) = sorted_by_path (updated_records out1)
  ∧ save_csv (updated_records out2) = save_csv (updated_records out1)
  ∧ table_of (updated_records out2) = table1
  ∧ new_urls out2 = 0
  ∧ removed_urls out2 = 0
  ∧ (forallb record_ok (updated_records out1) = true →
     load_existing_csv now (Some (save_csv (updated_records out1)))
     = Ok table1).
Proof.
  intros Hwf out1 table1 out2.
  pose proof (table_of_keyed (updated_records out1)) as Hwf1.
  pose proof (λ k, table_of_updated_records false now file_data existing k Hwf)
    as HT1.
  fold out1 in HT1. fold table1 in HT1, Hwf1.
  pose proof (updated_records_NoDup false now file_data existing Hwf) as Hnd1.
  pose proof (updated_records_NoDup false now file_data table1 Hwf1) as Hnd2.
  fold out1 in Hnd1. fold out2 in Hnd2.
  pose proof (strftime_Ymd_nonempty now) as Htoday.
  (* the record of a present path is the same in both runs *)
  assert (Hpresent : ∀ ad k c s, file_data !! k = Some (c, s) →
    present_record now ad table1 (k, (c, s))
    = present_record now
        (added_date (is_initial_crawl false existing) (strftime_Ymd now))
        existing (k, (c, s))).
  { intros ad k c s Hk. unfold present_record at 1. cbn [fst snd].
    rewrite HT1, Hk. apply set_same_creation_size;
      apply present_record_creation_size. }
  assert (Hperm : updated_records out2 ≡ₚ updated_records out1).
  { apply NoDup_Permutation;
      [by eapply NoDup_fmap_1|by eapply NoDup_fmap_1|].
    intros r'. unfold out1, out2. rewrite !elem_of_updated_records.
    fold out1. fold table1. split.
    - intros [(k & c & s & Hk & ->)|(Hmode2 & k & r & Hr & Hout & ->)].
      + left. exists k, c, s. split; [done|]. by apply Hpresent.
      + rewrite HT1, Hout in Hr.
        destruct (is_initial_crawl false existing) eqn:Hmode1; [done|].
        destruct (existing !! k) as [r0|] eqn:Hr0; [|done].
        injection Hr as <-. right. split; [done|]. exists k, r0.
        split; [done|]. split; [done|]. by apply absent_record_idemp.
    - intros [(k & c & s & Hk & ->)|(Hmode1 & k & r0 & Hr0 & Hout & ->)].
      + left. exists k, c, s. split; [done|]. symmetry. by apply Hpresent.
      + assert (Hk1 : table1 !! k
                      = Some (absent_record (strftime_Ymd now) r0)).
        { by rewrite HT1, Hout, Hmode1, Hr0. }
        right. split.
        * unfold is_initial_crawl. cbn [orb].
          apply bool_decide_eq_false. intros Hsize.
          apply map_size_empty_inv in Hsize. rewrite Hsize in Hk1.
          by rewrite lookup_empty in Hk1.
        * exists k, (absent_record (strftime_Ymd now) r0).
          split; [done|]. split; [done|].
          symmetry. by apply absent_record_idemp. }
  split; [by apply sorted_by_path_perm_eq|].
  split.
  { unfold save_csv. by rewrite (sorted_by_path_perm_eq _ _ Hperm Hnd2). }
  split; [by apply table_of_perm|].
  split; [|split].
  - unfold out2, reconcile. cbn [new_urls]. rewrite present_fold_count.
    rewrite filter_none; [done|].
    intros [k [c s]] Hin%elem_of_map_to_list. cbn [fst].
    by rewrite HT1, Hin.
  - unfold out2, reconcile. cbn [removed_urls].
    destruct (is_initial_crawl false table1); [done|].
    rewrite absent_fold_count. rewrite filter_none; [done|].
    intros [k r] Hin%elem_of_map_to_list [Hout Hrem]. cbn [fst snd] in *.
    apply not_elem_of_dom in Hout. rewrite HT1, Hout in Hin.
    destruct (is_initial_crawl false existing); [done|].
    destruct (existing !! k) as [r0|]; [|done]. injection Hin as <-.
    by apply (absent_record_removed (strftime_Ymd now) r0).
  - intros Hok. by apply load_save_csv.
Qed.

Lemma C2_reconcile_idempotent_witness :
  let file_data : gmap string (string * string) :=
    {["y" := ("2024-01-01 10:00:00", "5")]} in
  let out1 := reconcile false new_year_2024 file_data {["x" := record_x]} in
  let out2 := reconcile false new_year_2024 file_data
                (table_of (updated_records out1)) in
  save_csv (updated_records out2) = save_csv (updated_records out1)
  ∧ new_urls out2 = 0 ∧ removed_urls out2 = 0.
Proof.
  pose proof (C2_reconcile_idempotent new_year_2024
                {["y" := ("2024-01-01 10:00:00", "5")]} {["x" := record_x]}
                (keyed_by_path_singleton "x" record_x eq_refl))
    as (_ & Hsave & _ & Hnew & Hrem & _).
  exact (conj Hsave (conj Hnew Hrem)).
Defined.

(** The same two runs, as the sync job uses them. *)
Lemma reconcile_twice (now : datetime)
    (file_data : gmap string (string * string))
    (existing : gmap string FileRecord.t) :
  keyed_by_path existing →
  let out1 := reconcile false now file_data existing in
  let table1 := table_of (updated_records out1) in
  let out2 := reconcile false now file_data table1 in
  sorted_by_path (updated_records out2) = sorted_by_path (updated_records out1)
  ∧ save_csv (updated_records out2) = save_csv (updated_records out1)
  ∧ table_of (updated_records out2) = table1
  ∧ new_urls out2 = 0
  ∧ removed_urls out2 = 0
  ∧ (forallb record_ok (updated_records out1) = true →
     load_existing_csv now (Some (save_csv (updated_records out1)))
     = Ok table1).
Proof.
  intros Hwf out1 table1 out2.
  pose proof (table_of_keyed (updated_records out1)) as Hwf1.
  pose proof (λ k, table_of_updated_records false now file_data existing k Hwf)
    as HT1.
  fold out1 in HT1. fold table1 in HT1, Hwf1.
  pose proof (updated_records_NoDup false now file_data existing Hwf) as Hnd1.
  pose proof (updated_records_NoDup false now file_data table1 Hwf1) as Hnd2.
  fold out1 in Hnd1. fold out2 in Hnd2.
  pose proof (strftime_Ymd_nonempty now) as Htoday.
  (* the record of a present path is the same in both runs *)
  assert (Hpresent : ∀ ad k c s, file_data !! k = Some (c, s) →
    present_record now ad table1 (k, (c, s))
    = present_record now
        (added_date (is_initial_crawl false existing) (strftime_Ymd now))
        existing (k, (c, s))).
  { intros ad k c s Hk. unfold present_record at 1. cbn [fst snd].
    rewrite HT1, Hk. apply set_same_creation_size;
      apply present_record_creation_size. }
  assert (Hperm : updated_records out2 ≡ₚ updated_records out1).
  { apply NoDup_Permutation;
      [by eapply NoDup_fmap_1|by eapply NoDup_fmap_1|].
    intros r'. unfold out1, out2. rewrite !elem_of_updated_records.
    fold out1. fold table1. split.
    - intros [(k & c & s & Hk & ->)|(Hmode2 & k & r & Hr & Hout & ->)].
      + left. exists k, c, s. split; [done|]. by apply Hpresent.
      + rewrite HT1, Hout in Hr.
        destruct (is_initial_crawl false existing) eqn:Hmode1; [done|].
        destruct (existing !! k) as [r0|] eqn:Hr0; [|done].
        injection Hr as <-. right. split; [done|]. exists k, r0.
        split; [done|]. split; [done|]. by apply absent_record_idemp.
    - intros [(k & c & s & Hk & ->)|(Hmode1 & k & r0 & Hr0 & Hout & ->)].
      + left. exists k, c, s. split; [done|]. symmetry. by apply Hpresent.
      + assert (Hk1 : table1 !! k
                      = Some (absent_record (strftime_Ymd now) r0)).
        { by rewrite HT1, Hout, Hmode1, Hr0. }
        right. split.
        * unfold is_initial_crawl. cbn [orb].
          apply bool_decide_eq_false. intros Hsize.
          apply map_size_empty_inv in Hsize. rewrite Hsize in Hk1.
          by rewrite lookup_empty in Hk1.
        * exists k, (absent_record (strftime_Ymd now) r0).
          split; [done|]. split; [done|].
          symmetry. by apply absent_record_idemp. }
  split; [by apply sorted_by_path_perm_eq|].
  split.
  { unfold save_csv. by rewrite (sorted_by_path_perm_eq _ _ Hperm Hnd2). }
  split; [by apply table_of_perm|].
  split; [|split].
  - unfold out2, reconcile. cbn [new_urls]. rewrite present_fold_count.
    rewrite filter_none; [done|].
    intros [k [c s]] Hin%elem_of_map_to_list. cbn [fst].
    by rewrite HT1, Hin.
  - unfold out2, reconcile. cbn [removed_urls].
    destruct (is_initial_crawl false table1); [done|].
    rewrite absent_fold_count. rewrite filter_none; [done|].
    intros [k r] Hin%elem_of_map_to_list [Hout Hrem]. cbn [fst snd] in *.
    apply not_elem_of_dom in Hout. rewrite HT1, Hout in Hin.
    destruct (is_initial_crawl false existing); [done|].
    destruct (existing !! k) as [r0|]; [|done]. injection Hin as <-.
    by apply (absent_record_removed (strftime_Ymd now) r0).
  - intros Hok. by apply load_save_csv.
Qed.

(** ** The sync job, end to end *)

Lemma load_rows_keyed (now : datetime)
    (dicts : list (gmap string (option string)))
    (records table : gmap string FileRecord.t) :
  keyed_by_path records → load_rows now dicts records = Ok table →
  keyed_by_path table.
Proof.
  revert records. induction dicts as [|d dicts IH]; intros records Hwf Hload.
  - simpl in Hload. apply Ok_inj in Hload. by subst.
  - simpl in Hload. destruct (record_of_row now d) as [r|e]; [|done].
    apply (IH _ (map_Forall_insert_2 _ _ _ _ eq_refl Hwf) Hload).
Qed.

Lemma load_existing_csv_keyed (now : datetime) (file : option string)
    (table : gmap string FileRecord.t) :
  load_existing_csv now file = Ok table → keyed_by_path table.
Proof.
  destruct file as [text|]; simpl.
  - destruct (csv_dicts text) as [dicts err].
    destruct (load_rows now dicts ∅) as [records|e] eqn:Hrows; [|done].
    destruct err; [done|]. intros ->%Ok_inj.
    eapply load_rows_keyed; [|done]. apply map_Forall_empty.
  - intros <-%Ok_inj. apply map_Forall_empty.
Qed.

(** Two runs of the sync job on the same listing and date, the second on
    the file the first wrote: the file is unchanged and both counters are
    zero, when the records of the first run survive the text file. *)
Lemma sync_files_twice (now : datetime) (s3_lines : list string)
    (file : option string) (existing : gmap string FileRecord.t) :
  load_existing_csv now file = Ok existing →
  let out1 := reconcile false now (parse_listing s3_lines) existing in
  forallb record_ok (updated_records out1) = true →
  sync_files now s3_lines file false
  = Synced (save_csv (updated_records out1)) (new_urls out1) (removed_urls out1)
  ∧ sync_files now s3_lines (Some (save_csv (updated_records out1))) false
    = Synced (save_csv (updated_records out1)) 0 0.
Proof.
  intros Hload out1 Hok. subst out1. unfold sync_files. rewrite Hload.
  split; [done|].
  pose proof (load_existing_csv_keyed _ _ _ Hload) as Hwf.
  destruct (reconcile_twice now (parse_listing s3_lines) existing Hwf)
    as (_ & Hsave & _ & Hnew & Hrem & Hread).
  cbv zeta in Hsave, Hnew, Hrem, Hread.
  rewrite Hread by done. by rewrite Hsave, Hnew, Hrem.
Qed.

Example sync_files_scenario :
  sync_files new_year_2024
    ["2024-01-01 10:00:00      1234 Router_Setup/firmware/TL-WR841N_V14_en_1.2.3.bin";
     "2024-01-01 10:00:00         0 Router_Setup/firmware/"]
    None false
  = Synced
      ("creation,size,fullpath,added,removed,wayback_url"
       +:+ String CR (String LF
       ("2024-01-01 10:00:00,1234,Router_Setup/firmware/TL-WR841N_V14_en_1.2.3.bin,initial crawl,,"
       +:+ String CR (String LF ""))))
      1 0.
Proof. by vm_compute. Qed.

(** A line feed inside a cell survives the text file; a carriage return
    does not: the file is read with universal newlines. *)
Example load_line_feed :
  load_existing_csv new_year_2024 (Some (save_csv [record_lf]))
  = Ok {["a" +:+ String LF "b" := record_lf]}.
Proof. by vm_compute. Qed.

Example load_carriage_return :
  load_existing_csv new_year_2024 (Some (save_csv [record_cr]))
  = Ok {["a" +:+ String LF "b" := record_lf]}.
Proof. by vm_compute. Qed.

(** Loading the sample file whose row has empty [added], [removed] and
    [wayback_url] cells: the record gets the date of the load, and the two
    other fields stay empty. *)
Lemma load_fills_added_sample :
  FileRecord.added
    (FileRecord.mk "2023-05-01 08:00:00" "100" "x" "2024-01-01" "" "") ≠ ""
  ∧ ∃ text d,
      Some text_undated = Some text ∧ d ∈ (csv_dicts text).1
      ∧ record_of_row new_year_2024 d
        = Ok (FileRecord.mk "2023-05-01 08:00:00" "100" "x" "2024-01-01" "" "")
      ∧ "x" = "x"
      ∧ (cell_empty (d !! "added") = true → "2024-01-01" = strftime_Ymd new_year_2024)
      ∧ (cell_empty (d !! "added") = false → d !! "added" = Some (Some "2024-01-01"))
      ∧ (cell_empty (d !! "removed") = true → "" = "")
      ∧ (cell_empty (d !! "wayback_url") = true → "" = "").
Proof.
  exact (C10_load_fills_added new_year_2024 (Some text_undated)
           {["x" := FileRecord.mk "2023-05-01 08:00:00" "100" "x"
                      "2024-01-01" "" ""]} "x"
           (FileRecord.mk "2023-05-01 08:00:00" "100" "x" "2024-01-01" "" "")
           ltac:(by vm_compute) eq_refl).
Defined.

(** ** Archive submitter: what a run requests and what it changes *)

Lemma requests_of_app (tr1 tr2 : list Archive.event) :
  Archive.requests_of (tr1 ++ tr2)
  = Archive.requests_of tr1 ++ Archive.requests_of tr2.
Proof. unfold Archive.requests_of. apply omap_app. Qed.

Lemma successes_app (w : Archive.world) (n : nat) (us1 us2 : list string) :
  successes w n (us1 ++ us2)
  = successes w n us1 + successes w (n + length us1) us2.
Proof.
  revert n. induction us1 as [|u us1 IH]; intros n; simpl.
  - by rewrite Nat.add_0_r.
  - rewrite IH. replace (S n + length us1) with (n + S (length us1)) by lia. lia.
Qed.

Lemma rows_kept_refl (w : Archive.world) (rows : list Archive.row) :
  rows_kept w rows rows.
Proof. split; [done|]. intros i r' Hi. exists r'. auto. Qed.

Lemma pending_of_truthy (r : Archive.row) :
  Archive.truthy (r !! "wayback_url") = false →
  Archive.truthy (r !! "removed") = false → archive_pending r = true.
Proof. unfold archive_pending. by intros -> ->. Qed.

Lemma run_from_refl (w : Archive.world) (rows : list Archive.row)
    (indices : list nat) (st : Archive.state) :
  rows_kept w rows (Archive.records st) → run_from w rows indices st st.
Proof.
  intros Hk. split; [done|]. split; [by left|]. exists [], [], []. simpl.
  rewrite app_nil_r, !Nat.add_0_r.
  repeat split; try done; try apply sublist_nil_l; constructor.
Qed.

Lemma run_from_trans (w : Archive.world) (rows : list Archive.row)
    (idx1 idx2 : list nat) (st st2 st' : Archive.state) :
  run_from w rows idx1 st st2 → run_from w rows idx2 st2 st' →
  run_from w rows (idx1 ++ idx2) st st'.
Proof.
  intros (_ & Htab1 & js1 & ks1 & us1 & Hjs1 & Hks1 & Hreq1 & Harch1
          & Htr1 & Hn1 & Ha1 & Hs1)
         (Hk & Htab2 & js2 & ks2 & us2 & Hjs2 & Hks2 & Hreq2 & Harch2
          & Htr2 & Hn2 & Ha2 & Hs2).
  split; [done|]. split.
  { intros recs Hin. destruct (Htab2 recs Hin) as [Hin2|?]; auto. }
  exists (js1 ++ js2), (ks1 ++ ks2), (us1 ++ us2).
  split; [by apply sublist_app|]. split; [by apply sublist_app|].
  split; [by apply Forall2_app|]. split; [by apply Forall_app|].
  rewrite Htr2, Htr1, Hn2, Hn1, Ha2, Ha1, Hs2, Hs1, successes_app, Hn1.
  rewrite <- app_assoc, !length_app. repeat split; lia.
Qed.

(** The four ways through the body of the loop. *)
Lemma run_from_skip (w : Archive.world) (rows : list Archive.row) (i : nat)
    (r : Archive.row) (st : Archive.state) :
  rows_kept w rows (Archive.records st) →
  rows !! i = Some r → Archive.truthy (r !! "wayback_url") = true →
  run_from w rows [i] st
    {| Archive.records := Archive.records st;
       Archive.archived := Archive.archived st;
       Archive.skipped := S (Archive.skipped st);
       Archive.clock := Archive.clock st;
       Archive.requests := Archive.requests st;
       Archive.trace := Archive.trace st |}.
Proof.
  intros Hk Hi Hw. split; [done|]. split; [by left|].
  exists [], [i], []. simpl. rewrite app_nil_r, !Nat.add_0_r.
  repeat split; try done; try apply sublist_nil_l; try lia; try constructor.
  - by exists r.
  - constructor.
Qed.

Lemma run_from_refused (w : Archive.world) (rows : list Archive.row) (i : nat)
    (r : Archive.row) (fullpath : string) (seconds : Z) (st : Archive.state) :
  rows_kept w rows (Archive.records st) →
  rows !! i = Some r → archive_pending r = true →
  r !! "fullpath" = Some fullpath →
  accepted w (Archive.requests st) (Archive.save_url fullpath) = false →
  run_from w rows [i] st
    (Archive.sleep seconds (Archive.send w (Archive.save_url fullpath) st).2).
Proof.
  intros Hk Hi Hp Hf Hacc. split; [done|]. split.
  { intros recs Hin. left. cbn in Hin.
    rewrite !elem_of_app, !list_elem_of_singleton in Hin.
    by destruct Hin as [[?|?]|?]. }
  exists [i], [], [Archive.save_url fullpath]. cbn.
  rewrite !requests_of_app, Hacc. cbn. rewrite app_nil_r.
  repeat split; try done; try apply sublist_nil_l; try lia.
  constructor; [|constructor]. by exists r, fullpath.
Qed.

Lemma run_from_success (w : Archive.world) (rows : list Archive.row) (i : nat)
    (r : Archive.row) (fullpath : string) (cl : option string) (fu : string)
    (st : Archive.state) :
  rows_kept w rows (Archive.records st) →
  Archive.records st !! i = Some r → rows !! i = Some r →
  archive_pending r = true → r !! "fullpath" = Some fullpath →
  Archive.answer w (Archive.requests st) (Archive.save_url fullpath)
  = Archive.Success cl fu →
  run_from w rows [i] st
    (Archive.sleep 2
       (Archive.on_success i r cl fu
          (Archive.send w (Archive.save_url fullpath) st).2)).
Proof.
  intros Hk Hr Hi Hp Hf Hans.
  assert (Hk' : rows_kept w rows
            (<[i := <["wayback_url" := wayback_of cl fu]> r]> (Archive.records st))).
  { destruct Hk as [Hlen Hk]. split; [by rewrite length_insert|].
    intros j r' Hj. destruct (decide (j = i)) as [->|Hne].
    - rewrite list_lookup_insert_eq in Hj by (by apply lookup_lt_Some in Hr).
      injection Hj as <-. exists r. split; [done|]. right. split; [done|].
      by exists fullpath, (Archive.requests st), cl, fu.
    - rewrite list_lookup_insert_ne in Hj by done. by apply Hk. }
  unfold Archive.on_success. fold (wayback_of cl fu).
  cbn [Archive.send snd Archive.records Archive.skipped Archive.archived
       Archive.clock Archive.requests Archive.trace].
  destruct (Archive.writable _);
    cbn [Archive.sleep Archive.log Archive.records Archive.skipped
         Archive.archived Archive.clock Archive.requests Archive.trace].
  - split; [done|]. split.
    { intros recs Hin. cbn [Archive.sleep Archive.log Archive.trace] in Hin.
      rewrite !elem_of_app, !elem_of_cons in Hin.
      destruct Hin as [[[?|[?|Hn]]|[Heq|[?|Hn]]]|[?|Hn]]; try done;
        try (by apply elem_of_nil in Hn); [by left|].
      injection Heq as ->. by right. }
    exists [i], [], [Archive.save_url fullpath]. cbn.
    rewrite !requests_of_app. unfold accepted. rewrite Hans. cbn.
    rewrite !app_nil_r.
    repeat split; try done; try apply sublist_nil_l; try lia.
    constructor; [|constructor]. by exists r, fullpath.
  - split; [done|]. split.
    { intros recs Hin. left. cbn [Archive.sleep Archive.trace] in Hin.
      rewrite !elem_of_app, !list_elem_of_singleton in Hin.
      by destruct Hin as [[?|?]|?]. }
    exists [i], [], [Archive.save_url fullpath]. cbn.
    rewrite !requests_of_app. unfold accepted. rewrite Hans. cbn.
    rewrite !app_nil_r.
    repeat split; try done; try apply sublist_nil_l; try lia.
    constructor; [|constructor]. by exists r, fullpath.
Qed.

Lemma on_success_records i r cl fu (st : Archive.state) :
  Archive.records (Archive.on_success i r cl fu st)
  = <[i := <["wayback_url" := wayback_of cl fu]> r]> (Archive.records st).
Proof. unfold Archive.on_success. by destruct (Archive.writable _). Qed.

(** The loop, whatever the endpoint answers and whenever the time runs
    out. The rows still to visit are those of the table. *)
Lemma loop_run_from (w : Archive.world) (timeout start : Z)
    (rows : list Archive.row) (indices : list nat) (st : Archive.state) :
  NoDup indices →
  (∀ j, j ∈ indices → Archive.records st !! j = rows !! j) →
  rows_kept w rows (Archive.records st) →
  run_from w rows indices st
    (outcome_state (Archive.loop w timeout start indices st)).
Proof.
  revert st. induction indices as [|i rest IH]; intros st Hnd Hsame Hkept.
  { by apply run_from_refl. }
  apply NoDup_cons in Hnd as [Hi Hnd].
  assert (Hnext : ∀ st2,
            (∀ j, j ∈ rest → Archive.records st2 !! j = rows !! j) →
            run_from w rows [i] st st2 →
            run_from w rows (i :: rest) st
              (outcome_state (Archive.loop w timeout start rest st2))).
  { intros st2 Hrec Hstep. apply (run_from_trans w rows [i] rest st st2); [done|].
    apply IH; [done|done|]. by destruct Hstep. }
  assert (Hrest : ∀ j, j ∈ rest → Archive.records st !! j = rows !! j).
  { intros j Hj. apply Hsame. by right. }
  cbn [Archive.loop]. destruct (bool_decide _); [by apply run_from_refl|].
  pose proof (Hsame i ltac:(left)) as Hrow.
  destruct (Archive.records st !! i) as [r|] eqn:Hr; [|by apply run_from_refl].
  symmetry in Hrow.
  destruct (Archive.truthy (r !! "wayback_url")) eqn:Hw.
  { apply Hnext; [done|]. by apply (run_from_skip w rows i r). }
  destruct (Archive.truthy (r !! "removed")) eqn:Hrm.
  { apply Hnext; [done|]. by apply run_from_refl. }
  pose proof (pending_of_truthy r Hw Hrm) as Hp.
  destruct (r !! "fullpath") as [fullpath|] eqn:Hf; [|by apply run_from_refl].
  destruct (Archive.send w (Archive.save_url fullpath) st) as [resp st1] eqn:Hsend.
  assert (Hst1 : st1 = (Archive.send w (Archive.save_url fullpath) st).2)
    by by rewrite Hsend.
  assert (Hresp : resp
            = Archive.answer w (Archive.requests st) (Archive.save_url fullpath)).
  { unfold Archive.send in Hsend. by injection Hsend as <- _. }
  destruct resp as [cl fu|code|].
  - apply Hnext.
    + intros j Hj. cbn [Archive.sleep Archive.records].
      rewrite on_success_records, Hst1. cbn [Archive.send snd Archive.records].
      rewrite list_lookup_insert_ne by (intros ->; done). by apply Hrest.
    + rewrite Hst1. by apply (run_from_success w rows i r fullpath cl fu).
  - assert (Hacc : accepted w (Archive.requests st) (Archive.save_url fullpath)
                   = false) by (unfold accepted; by rewrite <- Hresp).
    destruct (decide (code = 429)); apply Hnext;
      try (intros j Hj; rewrite Hst1; by apply Hrest);
      rewrite Hst1; by apply (run_from_refused w rows i r).
  - assert (Hacc : accepted w (Archive.requests st) (Archive.save_url fullpath)
                   = false) by (unfold accepted; by rewrite <- Hresp).
    apply Hnext; [intros j Hj; rewrite Hst1; by apply Hrest|].
    rewrite Hst1. by apply (run_from_refused w rows i r).
Qed.

(** A whole run from the table [rows]. *)
Lemma main_run_from (w : Archive.world) (timeout start : Z)
    (rows : list Archive.row) :
  run_from w rows (seq 0 (length rows))
    {| Archive.records := rows; Archive.archived := 0; Archive.skipped := 0;
       Archive.clock := start; Archive.requests := 0;
       Archive.trace := [Archive.SaveStats 0 0 0] |}
    (Archive.final_state (Archive.main w timeout start (Some rows))).
Proof.
  unfold Archive.main. cbn [default].
  match goal with |- context [Archive.loop _ _ _ _ ?s] => set (st0 := s) end.
  pose proof (loop_run_from w timeout start rows (seq 0 (length rows)) st0
                (NoDup_seq _ _) (λ _ _, eq_refl) (rows_kept_refl w rows)) as Hrun.
  destruct (Archive.loop w timeout start (seq 0 (length rows)) st0) as [st|key st];
    cbn [outcome_state] in Hrun; [|done].
  destruct (Archive.writable (Archive.records st)); [|done].
  cbn [Archive.final_state].
  destruct Hrun as (Hk & Htab & js & ks & us & Hjs & Hks & Hreq & Harch
                    & Htr & Hn & Ha & Hs).
  split; [done|]. split.
  { intros recs Hin. cbn [Archive.log Archive.trace] in Hin.
    rewrite elem_of_app, !elem_of_cons in Hin.
    destruct Hin as [Hin|[Heq|[?|Hn']]]; [by apply Htab| |done|].
    - injection Heq as ->. by right.
    - by apply elem_of_nil in Hn'. }
  exists js, ks, us. cbn [Archive.log Archive.trace Archive.requests
                          Archive.archived Archive.skipped].
  rewrite requests_of_app. cbn [Archive.requests_of omap].
  by rewrite app_nil_r.
Qed.

(** The requests of a run, whatever the endpoint answers and whatever the
    time budget is: they are the requests of pending rows of the table
    (rows with no archive URL that are not marked as removed), in the order
    of the table and one at most for each row. No row is asked for twice,
    and an archived or removed row is never asked for. *)
Theorem archive_requests_once (w : Archive.world) (timeout start : Z)
    (rows : list Archive.row) :
  let st := Archive.final_state (Archive.main w timeout start (Some rows)) in
  ∃ js, js `sublist_of` seq 0 (length rows)
        ∧ Forall2 (requested rows) js (Archive.requests_of (Archive.trace st)).
Proof.
  intros st. subst st.
  destruct (main_run_from w timeout start rows)
    as (_ & _ & js & ks & us & Hjs & _ & Hreq & _ & Htr & _).
  exists js. split; [done|]. by rewrite Htr.
Qed.


(** The counters of a run: [archived] is the number of requests the
    endpoint accepted, [requests] the number of requests sent, and
    [skipped] counts rows that had an archive URL when the table was
    loaded, each one once at most. *)
Theorem archive_counters (w : Archive.world) (timeout start : Z)
    (rows : list Archive.row) :
  let st := Archive.final_state (Archive.main w timeout start (Some rows)) in
  Archive.archived st = successes w 0 (Archive.requests_of (Archive.trace st))
  ∧ Archive.requests st = length (Archive.requests_of (Archive.trace st))
  ∧ ∃ ks, ks `sublist_of` seq 0 (length rows)
          ∧ Forall (already_archived rows) ks
          ∧ Archive.skipped st = length ks.
Proof.
  intros st. subst st.
  destruct (main_run_from w timeout start rows)
    as (_ & _ & js & ks & us & _ & Hks & _ & Harch & Htr & Hn & Ha & Hs).
  cbn [Archive.trace Archive.requests Archive.archived Archive.skipped
       Archive.requests_of omap app] in Htr, Hn, Ha, Hs.
  rewrite Htr. split; [done|]. split; [done|]. by exists ks.
Qed.





(** ** Archive submitter: a run the endpoint accepts *)








(** ** Inventory reconciler: counters, paths and new records *)

Lemma size_map_filter {X} (P : string * X → Prop) `{!∀ e, Decision (P e)}
    (m : gmap string X) :
  size (filter P m) = length (filter P (map_to_list m)).
Proof.
  rewrite map_filter_alt, map_size_list_to_map; [done|].
  apply NoDup_fmap_filter, NoDup_fst_map_to_list.
Qed.

Lemma size_dom_difference {X Y} (m1 : gmap string X) (m2 : gmap string Y) :
  size (dom m1 ∖ dom m2)
  = length (filter (λ e, e.1 ∉ dom m2) (map_to_list m1)).
Proof.
  rewrite <- size_map_filter, <- size_dom. f_equal.
  apply set_eq. intros k. rewrite elem_of_difference, !elem_of_dom.
  split.
  - intros [[x Hx] Hout]. exists x. apply map_lookup_filter_Some.
    split; [done|]. simpl. by rewrite elem_of_dom.
  - intros [x [Hx Hout]%map_lookup_filter_Some]. simpl in Hout.
    rewrite elem_of_dom in Hout. split; [by exists x|done].
Qed.

(** The counters of a run and the number of records it writes. [new_urls]
    is the number of paths of the snapshot that the table lacks;
    [removed_urls] is the number of records of the table whose path the
    snapshot lacks and whose [removed] was empty, and 0 in initial-crawl
    mode; the records written are one per path of the snapshot and,
    outside initial-crawl mode, one per path that only the table has. *)
Theorem sync_counters (initial_crawl : bool) (now : datetime)
    (file_data : gmap string (string * string))
    (existing : gmap string FileRecord.t) :
  let out := reconcile initial_crawl now file_data existing in
  new_urls out = size (dom file_data ∖ dom existing)
  ∧ removed_urls out
    = (if is_initial_crawl initial_crawl existing then 0
       else size (filter (λ e : string * FileRecord.t,
                            (e.1 ∉ dom file_data) ∧ FileRecord.removed e.2 = "")
                    existing))
  ∧ length (updated_records out)
    = size file_data
      + (if is_initial_crawl initial_crawl existing then 0
         else size (dom existing ∖ dom file_data)).
Proof.
  intros out. subst out. split; [|split].
  - unfold reconcile. cbn [new_urls]. rewrite present_fold_count. cbn [snd].
    rewrite Nat.add_0_l, size_dom_difference. f_equal. apply list_filter_iff.
    intros [k cs]. cbn [fst]. by rewrite not_elem_of_dom.
  - unfold reconcile. cbn [removed_urls].
    destruct (is_initial_crawl initial_crawl existing); [done|].
    rewrite absent_fold_count. cbn [snd]. by rewrite Nat.add_0_l, size_map_filter.
  - rewrite updated_records_eq, length_app, !length_fmap, length_map_to_list.
    destruct (is_initial_crawl initial_crawl existing); [done|].
    by rewrite length_fmap, size_dom_difference.
Qed.

(** The paths of the records a run writes, from a table keyed by path:
    no path occurs twice, and the paths are those of the snapshot and,
    outside initial-crawl mode, those of the table. *)
Theorem sync_output_paths (initial_crawl : bool) (now : datetime)
    (file_data : gmap string (string * string))
    (existing : gmap string FileRecord.t) :
  keyed_by_path existing →
  let out := updated_records (reconcile initial_crawl now file_data existing) in
  NoDup (FileRecord.fullpath <$> out)
  ∧ ∀ k, k ∈ FileRecord.fullpath <$> out
         ↔ k ∈ dom file_data
           ∨ (is_initial_crawl initial_crawl existing = false ∧ k ∈ dom existing).
Proof.
  intros Hwf out. subst out. split; [by apply updated_records_NoDup|].
  intros k. rewrite list_elem_of_fmap. split.
  - intros (r' & -> & Hin).
    pose proof (updated_records_by_path _ _ _ _ _ Hwf Hin) as Hr'.
    destruct (file_data !! FileRecord.fullpath r') as [[c s]|] eqn:Hk.
    { left. by apply elem_of_dom. }
    destruct (existing !! FileRecord.fullpath r') as [r|] eqn:Hr; [|done].
    right. destruct Hr' as [Hmode _]. split; [done|]. by apply elem_of_dom.
  - intros Hk.
    pose proof (table_of_updated_records initial_crawl now file_data existing k Hwf)
      as Hlook.
    assert (Hsome : is_Some (table_of (updated_records
               (reconcile initial_crawl now file_data existing)) !! k)).
    { rewrite Hlook. destruct (file_data !! k) as [[c s]|] eqn:Hfd; [done|].
      destruct Hk as [Hk|[Hmode Hk]].
      - apply elem_of_dom in Hk as [? Hk]. congruence.
      - rewrite Hmode. apply elem_of_dom in Hk as [r Hr]. by rewrite Hr. }
    destruct Hsome as [r' Hr'].
    apply table_of_lookup in Hr' as [Hin Hp]; [|by apply updated_records_NoDup].
    by exists r'.
Qed.

Lemma sync_output_paths_witness :
  NoDup (FileRecord.fullpath
           <$> updated_records
                 (reconcile false new_year_2024
                    {["y" := ("2024-01-01 10:00:00", "5")]} {["x" := record_x]}))
  ∧ ∀ k, k ∈ FileRecord.fullpath
               <$> updated_records
                     (reconcile false new_year_2024
                        {["y" := ("2024-01-01 10:00:00", "5")]}
                        {["x" := record_x]})
         ↔ k ∈ dom ({["y" := ("2024-01-01 10:00:00", "5")]}
                      : gmap string (string * string))
           ∨ (is_initial_crawl false ({["x" := record_x]}) = false
              ∧ k ∈ dom ({["x" := record_x]} : gmap string FileRecord.t)).
Proof.
  apply (sync_output_paths false new_year_2024
           {["y" := ("2024-01-01 10:00:00", "5")]} {["x" := record_x]}).
  by apply keyed_by_path_singleton.
Defined.

(** A path the snapshot has and the table lacks: the run writes a new
    record for it, with [creation] and [size] from the snapshot, [added]
    set to the words [initial crawl] in initial-crawl mode and to the run
    date otherwise, and [removed] and [wayback_url] empty. From a table
    keyed by path it is the only record written for that path. *)
Theorem sync_new_record (initial_crawl : bool) (now : datetime)
    (file_data : gmap string (string * string))
    (existing : gmap string FileRecord.t) (k c s : string) :
  file_data !! k = Some (c, s) → existing !! k = None →
  let out := updated_records (reconcile initial_crawl now file_data existing) in
  let r := FileRecord.mk c s k
             (if is_initial_crawl initial_crawl existing then "initial crawl"
              else strftime_Ymd now) "" "" in
  r ∈ out
  ∧ (keyed_by_path existing →
     ∀ r', r' ∈ out → FileRecord.fullpath r' = k → r' = r).
Proof.
  intros Hk Hnone out r. subst out r.
  assert (Hinit : FileRecord.init now c s k
            (Some (added_date (is_initial_crawl initial_crawl existing)
                              (strftime_Ymd now))) None None
          = FileRecord.mk c s k
              (if is_initial_crawl initial_crawl existing then "initial crawl"
               else strftime_Ymd now) "" "").
  { unfold FileRecord.init, added_date, py_or.
    destruct (is_initial_crawl initial_crawl existing); [done|].
    by rewrite decide_False by apply strftime_Ymd_nonempty. }
  split.
  - apply elem_of_updated_records. left. exists k, c, s. split; [done|].
    unfold present_record. cbn [fst snd]. by rewrite Hnone.
  - intros Hwf r' Hin Hp.
    pose proof (updated_records_by_path _ _ _ _ _ Hwf Hin) as Hr'.
    rewrite Hp, Hk, Hnone in Hr'. by rewrite Hr', Hinit.
Qed.

Lemma sync_new_record_witness :
  FileRecord.mk "2024-01-01 10:00:00" "5" "y" "2024-01-01" "" ""
  ∈ updated_records
      (reconcile false new_year_2024 {["y" := ("2024-01-01 10:00:00", "5")]}
                 {["x" := record_x]}).
Proof.
  refine (proj1 (sync_new_record false new_year_2024
            {["y" := ("2024-01-01 10:00:00", "5")]} {["x" := record_x]}
            "y" "2024-01-01 10:00:00" "5" _ _)); reflexivity.
Defined.

(** ** Table store: the order of the rows *)

Lemma insert_by_path_sorted (r : FileRecord.t) (l : list FileRecord.t) :
  StronglySorted (λ a b, String.le (FileRecord.fullpath a) (FileRecord.fullpath b)) l →
  StronglySorted (λ a b, String.le (FileRecord.fullpath a) (FileRecord.fullpath b))
    (insert_by_path r l).
Proof.
  induction 1 as [|x l Hl IH Hx]; simpl.
  - by repeat constructor.
  - destruct (decide (String.le (FileRecord.fullpath r) (FileRecord.fullpath x)))
      as [Hle|Hgt].
    + constructor; [by constructor|]. constructor; [done|].
      eapply Forall_impl; [exact Hx|]. intros y Hy. simpl in Hy. by etrans.
    + constructor; [done|]. rewrite insert_by_path_perm. constructor; [|done].
      destruct (total String.le (FileRecord.fullpath r) (FileRecord.fullpath x));
        [done|done].
Qed.

Lemma sorted_by_path_sorted (l : list FileRecord.t) :
  StronglySorted (λ a b, String.le (FileRecord.fullpath a) (FileRecord.fullpath b))
    (sorted_by_path l).
Proof.
  induction l as [|r l IH]; [constructor|]. by apply insert_by_path_sorted.
Qed.

(** What [save_csv] writes for records with distinct paths: the header,
    then one row per record in ascending order of path; the text does not
    depend on the order in which the records are handed over. *)
Theorem save_csv_sorted (l1 l2 : list FileRecord.t) :
  l1 ≡ₚ l2 → NoDup (FileRecord.fullpath <$> l1) →
  ∃ sorted,
    sorted ≡ₚ l1
    ∧ StronglySorted
        (λ a b, String.le (FileRecord.fullpath a) (FileRecord.fullpath b)) sorted
    ∧ save_csv l1 = crlf_text (fieldnames :: (record_cells <$> sorted))
    ∧ save_csv l2 = save_csv l1.
Proof.
  intros Hperm Hnd. exists (sorted_by_path l1).
  split; [apply sorted_by_path_perm|]. split; [apply sorted_by_path_sorted|].
  split; [apply save_csv_crlf_text|].
  unfold save_csv. by rewrite (sorted_by_path_perm_eq l1 l2).
Qed.

Lemma save_csv_sorted_witness :
  ∃ sorted,
    sorted ≡ₚ [record_x; FileRecord.mk "2024-01-01 10:00:00" "5" "a" "2024-01-01" "" ""]
    ∧ StronglySorted
        (λ a b, String.le (FileRecord.fullpath a) (FileRecord.fullpath b)) sorted
    ∧ save_csv [record_x;
                FileRecord.mk "2024-01-01 10:00:00" "5" "a" "2024-01-01" "" ""]
      = crlf_text (fieldnames :: (record_cells <$> sorted))
    ∧ save_csv [FileRecord.mk "2024-01-01 10:00:00" "5" "a" "2024-01-01" "" "";
                record_x]
      = save_csv [record_x;
                  FileRecord.mk "2024-01-01 10:00:00" "5" "a" "2024-01-01" "" ""].
Proof.
  refine (save_csv_sorted
            [record_x; FileRecord.mk "2024-01-01 10:00:00" "5" "a" "2024-01-01" "" ""]
            [FileRecord.mk "2024-01-01 10:00:00" "5" "a" "2024-01-01" "" ""; record_x]
            _ _).
  - apply Permutation_swap.
  - simpl. apply NoDup_cons. split; [|apply NoDup_singleton].
    intros Hin%list_elem_of_singleton. discriminate Hin.
Defined.

(** ** Table store: what a load keeps of the rows *)





(** ** The sync job: the first run *)

(** A run that finds no table, or an empty one: whatever the flag, the
    run is an initial crawl. The file written has one record per path of
    the listing, with [added] set to the words [initial crawl] and
    [removed] and [wayback_url] empty; [new_urls] is the number of paths
    and [removed_urls] is 0. *)
Theorem sync_first_run (now : datetime) (s3_lines : list string)
    (file : option string) (initial_crawl : bool) :
  load_existing_csv now file = Ok ∅ →
  sync_files now s3_lines file initial_crawl
  = Synced
      (save_csv ((λ e : string * (string * string),
                    FileRecord.mk e.2.1 e.2.2 e.1 "initial crawl" "" "")
                   <$> map_to_list (parse_listing s3_lines)))
      (size (parse_listing s3_lines)) 0.
Proof.
  intros Hload. unfold sync_files. rewrite Hload.
  assert (Hmode : is_initial_crawl initial_crawl (∅ : gmap string FileRecord.t)
                  = true).
  { unfold is_initial_crawl. rewrite map_size_empty. by destruct initial_crawl. }
  f_equal.
  - f_equal. rewrite updated_records_eq, Hmode, app_nil_r.
    apply list_fmap_ext. intros i [k [c s]] _. unfold present_record.
    by rewrite lookup_empty.
  - unfold reconcile. cbn [new_urls]. rewrite present_fold_count. cbn [snd].
    rewrite Nat.add_0_l, filter_all, length_map_to_list; [done|].
    apply Forall_forall. intros e _. apply lookup_empty.
  - unfold reconcile. cbn [removed_urls]. by rewrite Hmode.
Qed.

Lemma sync_first_run_witness :
  sync_files new_year_2024
    ["2024-01-01 10:00:00      1234 Router_Setup/firmware/TL-WR841N_V14_en_1.2.3.bin"]
    None false
  = Synced
      (save_csv ((λ e : string * (string * string),
                    FileRecord.mk e.2.1 e.2.2 e.1 "initial crawl" "" "")
                   <$> map_to_list
                         (parse_listing
                            ["2024-01-01 10:00:00      1234 Router_Setup/firmware/TL-WR841N_V14_en_1.2.3.bin"])))
      (size (parse_listing
               ["2024-01-01 10:00:00      1234 Router_Setup/firmware/TL-WR841N_V14_en_1.2.3.bin"]))
      0.
Proof.
  exact (sync_first_run new_year_2024
           ["2024-01-01 10:00:00      1234 Router_Setup/firmware/TL-WR841N_V14_en_1.2.3.bin"]
           None false eq_refl).
Defined.

(** ** Listing parser: the lines that are data lines *)

Lemma lstrip_split (s : string) :
  ∃ lead, s = lead +:+ lstrip s ∧ str_all is_space lead = true.
Proof.
  induction s as [|c s (lead & IH & Hlead)]; [by exists ""|].
  simpl. destruct (is_space c) eqn:Hc.
  - exists (String c lead). rewrite append_cons, <- IH. simpl. by rewrite Hc.
  - by exists "".
Qed.

Lemma lstrip_head (s : string) :
  match lstrip s with "" => True | String c _ => is_space c = false end.
Proof.
  induction s as [|c s IH]; [done|]. simpl.
  destruct (is_space c) eqn:Hc; [done|]. by rewrite Hc.
Qed.

Lemma take_word_split (s w rest : string) :
  take_word s = (w, rest) →
  s = w +:+ rest ∧ str_all (λ c, negb (is_space c)) w = true
  ∧ match rest with "" => True | String c _ => is_space c = true end.
Proof.
  revert w rest. induction s as [|c s IH]; intros w rest; simpl.
  - by intros [= <- <-].
  - destruct (is_space c) eqn:Hc.
    + intros [= <- <-]. by rewrite Hc.
    + destruct (take_word s) as [w' rest'].
      destruct (IH w' rest' eq_refl) as (-> & Hw' & Hrest).
      intros [= <- <-]. rewrite append_cons. simpl. by rewrite Hc.
Qed.

(** One item of a split with splits left: blanks, a word, and the text
    the rest of the split works on, which is empty or starts with a
    blank. *)
Lemma split_ws_word_inv (m : nat) (s w : string) (l : list string) :
  split_ws (S m) s = w :: l →
  ∃ lead rest, s = lead +:+ w +:+ rest ∧ str_all is_space lead = true
    ∧ is_word w = true
    ∧ match rest with "" => True | String c _ => is_space c = true end
    ∧ l = split_ws m rest.
Proof.
  cbn [split_ws]. destruct (lstrip_split s) as (lead & Hs & Hlead).
  pose proof (lstrip_head s) as Hhead.
  destruct (lstrip s) as [|c s1] eqn:Hs1; [done|].
  destruct (take_word (String c s1)) as [w' rest] eqn:Htw.
  intros [= -> <-].
  destruct (take_word_split _ _ _ Htw) as (Heq & Hw & Hrest).
  exists lead, rest. rewrite <- Heq. split; [done|]. split; [done|].
  split; [|done]. unfold is_word. rewrite Hw, andb_true_r.
  apply bool_decide_eq_true. intros ->. rewrite append_nil_l in Heq. subst rest.
  by rewrite Hhead in Hrest.
Qed.

Lemma split_ws_last_inv (s p : string) :
  split_ws 0 s = [p] →
  ∃ b, s = b +:+ p ∧ str_all is_space b = true ∧ is_remainder p = true.
Proof.
  cbn [split_ws]. destruct (lstrip_split s) as (lead & Hs & Hlead).
  pose proof (lstrip_head s) as Hhead.
  destruct (lstrip s) as [|c s1] eqn:Hs1; [done|]. intros [= <-].
  exists lead. split; [done|]. split; [done|]. simpl. by rewrite Hhead.
Qed.

(** Blanks between an item and the next one: there is one at least. *)
Lemma blanks_before_item (rest b x tail : string) :
  match rest with "" => True | String c _ => is_space c = true end →
  rest = b +:+ x +:+ tail → str_all is_space b = true →
  match x with "" => False | String c _ => is_space c = false end →
  is_blank b = true.
Proof.
  intros Hrest -> Hb Hx. unfold is_blank. rewrite Hb, andb_true_r.
  apply bool_decide_eq_true. intros ->. rewrite append_nil_l in Hrest.
  destruct x as [|c x]; [done|]. rewrite append_cons in Hrest. congruence.
Qed.

Lemma is_word_head (w : string) :
  is_word w = true →
  match w with "" => False | String c _ => is_space c = false end.
Proof.
  unfold is_word. intros [Hne Hw]%andb_true_iff.
  apply bool_decide_eq_true in Hne. destruct w as [|c w]; [done|].
  simpl in Hw. apply andb_true_iff in Hw as [Hc _]. by apply negb_true_iff.
Qed.

Lemma is_remainder_head (p : string) :
  is_remainder p = true →
  match p with "" => False | String c _ => is_space c = false end.
Proof. destruct p as [|c p]; [done|]. simpl. by intros ?%negb_true_iff. Qed.

(** The data lines of a listing, exactly: a line gives a record when, and
    only when, it is made of a date, a time and a size, three words
    without blanks, and a path that does not start with a blank and does
    not end with [/], with blanks between them and possibly before the
    date; the record has the date and the time joined by one space, the
    size and the path, blanks inside and at the end of the path
    included. *)
Theorem parse_s3_line_data_line (line creation size path : string) :
  parse_s3_line line = Some (creation, size, path)
  ↔ ∃ lead d b1 t b2 b3,
      line = lead +:+ d +:+ b1 +:+ t +:+ b2 +:+ size +:+ b3 +:+ path
      ∧ creation = d +:+ " " +:+ t
      ∧ str_all is_space lead = true
      ∧ is_word d = true ∧ is_blank b1 = true
      ∧ is_word t = true ∧ is_blank b2 = true
      ∧ is_word size = true ∧ is_blank b3 = true
      ∧ is_remainder path = true ∧ endswith path "/" = false.
Proof.
  split.
  - unfold parse_s3_line.
    destruct (split_ws 3 line) as [|d [|t [|sz [|p [|x l]]]]] eqn:Hsplit; try done.
    destruct (endswith p "/") eqn:Hend; [done|]. intros [= <- <- <-].
    apply split_ws_word_inv in Hsplit as (lead & r1 & -> & Hlead & Hd & Hr1 & Hsplit).
    symmetry in Hsplit.
    apply split_ws_word_inv in Hsplit as (b1 & r2 & -> & Hb1 & Ht & Hr2 & Hsplit).
    symmetry in Hsplit.
    apply split_ws_word_inv in Hsplit as (b2 & r3 & -> & Hb2 & Hsz & Hr3 & Hsplit).
    symmetry in Hsplit.
    apply split_ws_last_inv in Hsplit as (b3 & -> & Hb3 & Hp).
    exists lead, d, b1, t, b2, b3. split; [done|]. split; [done|].
    split; [done|]. split; [done|].
    split; [exact (blanks_before_item _ b1 t _ Hr1 eq_refl Hb1 (is_word_head _ Ht))|].
    split; [done|].
    split; [exact (blanks_before_item _ b2 sz _ Hr2 eq_refl Hb2 (is_word_head _ Hsz))|].
    split; [done|]. split; [|done].
    apply (blanks_before_item (b3 +:+ p) b3 p "");
      [done|by rewrite append_nil_r|done|by apply is_remainder_head].
  - intros (lead & d & b1 & t & b2 & b3 & -> & -> & Hlead & Hd & Hb1 & Ht & Hb2
            & Hsz & Hb3 & Hp & Hend).
    rewrite parse_s3_line_shape by done. by rewrite Hend.
Qed.

(** The snapshot of a listing: under each path, the date and the size of
    the last data line with that path; lines that are not data lines
    leave the snapshot as it is. *)
Theorem parse_listing_last_line (s3_lines : list string) (k : string) :
  parse_listing s3_lines !! k = last (omap (line_entry k) s3_lines).
Proof.
  unfold parse_listing.
  induction s3_lines as [|line lines IH] using rev_ind; [done|].
  rewrite foldl_snoc, omap_app. unfold parse_step at 1, line_entry at 2.
  cbn [omap list_omap].
  destruct (parse_s3_line line) as [[[c s] p]|].
  - destruct (decide (p = k)) as [->|Hne].
    + by rewrite lookup_insert_eq, last_snoc.
    + by rewrite lookup_insert_ne, app_nil_r.
  - by rewrite app_nil_r.
Qed.

(** ** The sync job: a second run *)

(** Running the sync job twice on the same listing and on the same day,
    the second time on the file the first run wrote, leaves the file as it
    is and counts no new and no removed record, when the records of the
    first run survive the text file (no empty [added], no carriage return
    in a cell, no cell above the size limit of the reader). *)
Theorem sync_files_rerun (now : datetime) (s3_lines : list string)
    (file : option string) (existing : gmap string FileRecord.t) :
  load_existing_csv now file = Ok existing →
  let out1 := reconcile false now (parse_listing s3_lines) existing in
  forallb record_ok (updated_records out1) = true →
  sync_files now s3_lines file false
  = Synced (save_csv (updated_records out1)) (new_urls out1) (removed_urls out1)
  ∧ sync_files now s3_lines (Some (save_csv (updated_records out1))) false
    = Synced (save_csv (updated_records out1)) 0 0.
Proof. apply sync_files_twice. Qed.

Lemma sync_files_rerun_witness :
  let s3_lines :=
    ["2024-01-01 10:00:00      1234 Router_Setup/firmware/TL-WR841N_V14_en_1.2.3.bin"] in
  let out1 := reconcile false new_year_2024 (parse_listing s3_lines) ∅ in
  sync_files new_year_2024 s3_lines None false
  = Synced (save_csv (updated_records out1)) (new_urls out1) (removed_urls out1)
  ∧ sync_files new_year_2024 s3_lines (Some (save_csv (updated_records out1))) false
    = Synced (save_csv (updated_records out1)) 0 0.
Proof.
  refine (sync_files_rerun new_year_2024
            ["2024-01-01 10:00:00      1234 Router_Setup/firmware/TL-WR841N_V14_en_1.2.3.bin"]
            None ∅ _ _).
  - reflexivity.
  - by vm_compute.
Defined.

(** ** Path classifier: what the two patterns match *)

Section MatcherInversion.
Context {A : Type}.
Implicit Types k : nat → string → option A.



End MatcherInversion.















(** ** Path classifier: the shape of the answer *)









(** ** The table file between the two scripts *)
















(** ** Listing source: the two ways to get the listing *)










(** *** The items between the line feeds *)









(** *** The lines of a file *)



(** *** What the parser makes of a stripped line *)





